(** * memoryalloc.c: a first-fit free-list allocator over sbrk()

    A shallow embedding of [src/memoryalloc.c] and the verification of its
    specification.  The allocator keeps a singly linked list of block headers
    ([head], [tail]) inside one arena that grows and shrinks at its upper
    boundary (the program break).

    Modelling choices:
    - addresses and [size_t] values are integers ([Z]); [NULL] is [0];
      [size_t] arithmetic wraps modulo [2 ^ bits] and the conversion of a
      [size_t] to the [intptr_t] argument of [sbrk] is two's complement;
      pointer arithmetic ([header + 1], [block - 1], [block + size]) is
      integer arithmetic on addresses, in units of bytes;
    - the memory holding headers is a finite map from the address of a header
      to its [metadata] fields; payload bytes live in a second finite map.
      A store to one header leaves every other entry as it is, which is the
      memory of the source as long as headers do not overlap and addresses
      stay within the pointer width, as they do in every well-formed arena;
      the theorems on the growth of the arena and on releases away from the
      break are stated under the invariant, or compare addresses modulo the
      pointer width as the source does;
    - the two [while] loops walk a linked list that may be cyclic, so they
      take a bound on the number of iterations and report [Diverge] when it
      is exhausted; a dereference of an address that holds no header is
      [Fault];
    - [malloc_lock] serialises whole calls; the model is sequential and a
      call is one atomic step. *)

From Stdlib Require Import ZArith Lia Bool List Sorted Strings.Byte.
From stdpp Require Import base option list gmap.
Import ListNotations.
Open Scope Z_scope.

(** ** Data models and the layout of [union header] *)

(** The two data models of the platforms that provide [sbrk]: 4-byte or
    8-byte [size_t] and pointers (the comments of the source count 8 bytes
    for [size]), 4-byte [unsigned]; every scalar is aligned to its size. *)
Inductive abi : Set := ILP32 | LP64.

(** Size and alignment of a C object type, in bytes. *)
Record ctype : Set := CType { ct_size : Z; ct_align : Z }.

Definition size_t_type (a : abi) : ctype :=
  match a with ILP32 => CType 4 4 | LP64 => CType 8 8 end.

Definition unsigned_type : ctype := CType 4 4.

Definition pointer_type (a : abi) : ctype :=
  match a with ILP32 => CType 4 4 | LP64 => CType 8 8 end.

(** [char x[n]] *)
Definition char_array (n : Z) : ctype := CType n 1.

(** Round [n] up to a multiple of [k]. *)
Definition align_up (n k : Z) : Z := (n + k - 1) / k * k.

(** A struct places each member at the next offset aligned for it and is
    padded to its strictest member alignment. *)
Definition struct_type (members : list ctype) : ctype :=
  let al := fold_left (fun m f => Z.max m (ct_align f)) members 1 in
  let off := fold_left (fun o f => align_up o (ct_align f) + ct_size f) members 0 in
  CType (align_up off al) al.

(** A union is as large as its largest member, padded to its strictest
    member alignment. *)
Definition union_type (members : list ctype) : ctype :=
  let al := fold_left (fun m f => Z.max m (ct_align f)) members 1 in
  let sz := fold_left (fun m f => Z.max m (ct_size f)) members 0 in
  CType (align_up sz al) al.

(** [typedef char alignment[16];] *)
Definition alignment : ctype := char_array 16.

(** [struct { size_t size; unsigned is_free; union header *next; } metadata] *)
Definition metadata_type (a : abi) : ctype :=
  struct_type [size_t_type a; unsigned_type; pointer_type a].

(** [union header { struct {...} metadata; alignment stub; }] *)
Definition header_t (a : abi) : ctype :=
  union_type [metadata_type a; alignment].

(** [sizeof(header_t)] *)
Definition sizeof_header (a : abi) : Z := ct_size (header_t a).

(** Width of [size_t], [intptr_t] and of pointers, in bits. *)
Definition bits (a : abi) : Z := 8 * ct_size (size_t_type a).

(** [size_t] arithmetic: reduction modulo [2 ^ bits]. *)
Definition wrap (a : abi) (z : Z) : Z := z mod 2 ^ bits a.

(** Conversion of a [size_t] value to [intptr_t]. *)
Definition to_intptr (a : abi) (z : Z) : Z :=
  if z <? 2 ^ (bits a - 1) then z else z - 2 ^ bits a.

Definition NULL : Z := 0.

(** ** Headers and allocator state *)

Module metadata.
(** The fields of [header->metadata].  [is_free] is only ever written
    [0] or [1] and only tested for being non-zero. *)
Record t : Set := Build { size : Z; is_free : bool; next : Z }.

Definition set_is_free (b : bool) (h : t) : t :=
  {| size := size h; is_free := b; next := next h |}.

Definition set_next (n : Z) (h : t) : t :=
  {| size := size h; is_free := is_free h; next := n |}.
End metadata.

(** The globals [head] and [tail], the memory, and the state of the arena
    growth primitive: the program break [brk] and the largest break the
    environment grants, [brk_max]. *)
Record state : Type := State {
  head : Z;
  tail : Z;
  heap : gmap Z metadata.t;
  mem : gmap Z byte;
  brk : Z;
  brk_max : Z
}.

Definition set_head (v : Z) (st : state) : state :=
  State v (tail st) (heap st) (mem st) (brk st) (brk_max st).
Definition set_tail (v : Z) (st : state) : state :=
  State (head st) v (heap st) (mem st) (brk st) (brk_max st).
Definition set_heap (v : gmap Z metadata.t) (st : state) : state :=
  State (head st) (tail st) v (mem st) (brk st) (brk_max st).
Definition set_mem (v : gmap Z byte) (st : state) : state :=
  State (head st) (tail st) (heap st) v (brk st) (brk_max st).
Definition set_brk (v : Z) (st : state) : state :=
  State (head st) (tail st) (heap st) (mem st) v (brk_max st).

(** ** Outcomes of a call *)

Inductive outcome (A : Type) : Type :=
| Ret (x : A)
| Fault
| Diverge.
Arguments Ret {A} x.
Arguments Fault {A}.
Arguments Diverge {A}.

#[global] Instance outcome_ret : MRet outcome := fun A x => Ret x.
#[global] Instance outcome_bind : MBind outcome := fun A B f m =>
  match m with
  | Ret x => f x
  | Fault => Fault
  | Diverge => Diverge
  end.

(** Read the header stored at address [p]. *)
Definition load (hs : gmap Z metadata.t) (p : Z) : outcome metadata.t :=
  match hs !! p with
  | Some h => Ret h
  | None => Fault
  end.

(** ** The arena growth primitive *)

(** Modelled from the spec: [sbrk] is the external arena growth primitive
    ("extend current region by N bytes, returning the previous boundary
    address, or signal failure", "shrink current region by N bytes") and the
    comment of the source ("sbrk(0) = current addr, sbrk(x) increments brk by
    x bytes, sbrk(-x) decrements brk by x bytes; returns previous break
    value, or (void * ) -1 on error").  [None] stands for the error; growth
    fails exactly when it would pass [brk_max]. *)
Definition sbrk (st : state) (increment : Z) : option (Z * state) :=
  if increment =? 0 then Some (brk st, st)
  else if increment <? 0 then Some (brk st, set_brk (brk st + increment) st)
  else if brk st + increment <=? brk_max st
       then Some (brk st, set_brk (brk st + increment) st)
       else None.

(** The pointer [sbrk] hands back: the previous break, or [(void * ) -1]. *)
Definition sbrk_result (st : state) (r : option (Z * state)) : Z * state :=
  match r with
  | Some x => x
  | None => (-1, st)
  end.

(** ** The allocator *)

Section Allocator.
Variable a : abi.

(** The loop of [check_for_block], from [curr]. *)
Fixpoint check_for_block_loop (fuel : nat) (hs : gmap Z metadata.t)
         (size curr : Z) : outcome Z :=
  match fuel with
  | O => Diverge
  | S fuel' =>
      if curr =? NULL then Ret NULL
      else
        h ← load hs curr;
        if metadata.is_free h && (size <=? metadata.size h)
        then Ret curr
        else check_for_block_loop fuel' hs size (metadata.next h)
  end.

Definition check_for_block (fuel : nat) (st : state) (size : Z) : outcome Z :=
  check_for_block_loop fuel (heap st) size (head st).

Definition malloc (fuel : nat) (st : state) (size : Z) : outcome (Z * state) :=
  if size =? 0 then Ret (NULL, st)
  else
    header ← check_for_block fuel st size;
    if negb (header =? NULL) then
      h ← load (heap st) header;
      Ret (header + sizeof_header a,
           set_heap (<[header := metadata.set_is_free false h]> (heap st)) st)
    else
      let total_size := wrap a (sizeof_header a + size) in
      let '(block, st1) := sbrk_result st (sbrk st (to_intptr a total_size)) in
      if block =? -1 then Ret (NULL, st)
      else
        let header := block in
        let hs1 := <[header := metadata.Build size false NULL]> (heap st1) in
        let hd := if head st1 =? NULL then header else head st1 in
        hs2 ← (if negb (tail st1 =? NULL)
               then t ← load hs1 (tail st1);
                    Ret (<[tail st1 := metadata.set_next header t]> hs1)
               else Ret hs1);
        Ret (header + sizeof_header a,
             set_tail header (set_head hd (set_heap hs2 st1))).

(** The loop of [free] that unlinks [tail]; it writes [tmp->next] and
    [tail] and then reads [tmp->next] again. *)
Fixpoint free_loop (fuel : nat) (hs : gmap Z metadata.t) (tl tmp : Z)
  : outcome (gmap Z metadata.t * Z) :=
  match fuel with
  | O => Diverge
  | S fuel' =>
      if tmp =? NULL then Ret (hs, tl)
      else
        h ← load hs tmp;
        let '(hs1, tl1) :=
          if metadata.next h =? tl
          then (<[tmp := metadata.set_next NULL h]> hs, tmp)
          else (hs, tl) in
        h1 ← load hs1 tmp;
        free_loop fuel' hs1 tl1 (metadata.next h1)
  end.

Definition free (fuel : nat) (st : state) (block : Z) : outcome state :=
  if block =? NULL then Ret st
  else
    let header := block - sizeof_header a in
    let '(progbrk, st0) := sbrk_result st (sbrk st 0) in
    h ← load (heap st0) header;
    if block + metadata.size h =? progbrk then
      st1 ← (if head st0 =? tail st0
             then Ret (set_tail NULL (set_head NULL st0))
             else '(hs, tl) ← free_loop fuel (heap st0) (tail st0) (head st0);
                  Ret (set_tail tl (set_heap hs st0)));
      h1 ← load (heap st1) header;
      let dec := wrap a (0 - sizeof_header a - metadata.size h1) in
      Ret (snd (sbrk_result st1 (sbrk st1 (to_intptr a dec))))
    else
      Ret (set_heap (<[header := metadata.set_is_free true h]> (heap st0)) st0).

(** [memset(p, c, n)] on the payload bytes. *)
Fixpoint memset_loop (m : gmap Z byte) (p : Z) (c : byte) (n : nat)
  : gmap Z byte :=
  match n with
  | O => m
  | S n' => memset_loop (<[p := c]> m) (p + 1) c n'
  end.

Definition memset (m : gmap Z byte) (p : Z) (c : byte) (n : Z) : gmap Z byte :=
  memset_loop m p c (Z.to_nat n).

(** [memcpy(dst, src, n)] on the payload bytes; a source byte that was
    never written stays unwritten in the copy. *)
Fixpoint memcpy_loop (m : gmap Z byte) (dst src : Z) (n : nat) : gmap Z byte :=
  match n with
  | O => m
  | S n' =>
      let m1 := match m !! src with
                | Some b => <[dst := b]> m
                | None => delete dst m
                end in
      memcpy_loop m1 (dst + 1) (src + 1) n'
  end.

Definition memcpy (m : gmap Z byte) (dst src n : Z) : gmap Z byte :=
  memcpy_loop m dst src (Z.to_nat n).

Definition calloc (fuel : nat) (st : state) (num esize : Z)
  : outcome (Z * state) :=
  if (num =? 0) || (esize =? 0) then Ret (NULL, st)
  else
    let total := wrap a (num * esize) in
    if negb (esize =? total / num) then Ret (NULL, st)
    else
      '(block, st1) ← malloc fuel st total;
      if block =? NULL then Ret (NULL, st1)
      else Ret (block, set_mem (memset (mem st1) block x00 total) st1).

Definition realloc (fuel : nat) (st : state) (block size : Z)
  : outcome (Z * state) :=
  if (block =? NULL) || (size =? 0) then malloc fuel st size
  else
    let header := block - sizeof_header a in
    h ← load (heap st) header;
    if size <=? metadata.size h then Ret (block, st)
    else
      '(reblock, st1) ← malloc fuel st size;
      if negb (reblock =? NULL) then
        h1 ← load (heap st1) header;
        let st2 :=
          set_mem (memcpy (mem st1) reblock block (metadata.size h1)) st1 in
        st3 ← free fuel st2 block;
        Ret (reblock, st3)
      else Ret (reblock, st1).

End Allocator.

(** ** Describing the block list *)

(** [lseg hs p l q]: following the [next] links from [p] visits the headers
    at the addresses [l], in this order, none of them [NULL], and arrives
    at [q]. *)
Fixpoint lseg (hs : gmap Z metadata.t) (p : Z) (l : list Z) (q : Z) : bool :=
  match l with
  | [] => p =? q
  | x :: l' =>
      (p =? x) && negb (x =? NULL) &&
      match hs !! x with
      | Some h => lseg hs (metadata.next h) l' q
      | None => false
      end
  end.

(** The first-fit test of [check_for_block] on the header at [x]. *)
Definition fits_at (hs : gmap Z metadata.t) (size x : Z) : bool :=
  match hs !! x with
  | Some h => metadata.is_free h && (size <=? metadata.size h)
  | None => false
  end.

(** No block of [l] passes the first-fit test. *)
Definition no_fit (hs : gmap Z metadata.t) (size : Z) (l : list Z) : bool :=
  forallb (fun x => negb (fits_at hs size x)) l.

(** [x] does not occur in [l]. *)
Definition absent (x : Z) (l : list Z) : bool :=
  forallb (fun y => negb (y =? x)) l.

(** [tiled a hs l top]: the blocks at the addresses [l] lie at positive
    addresses, have a positive size and a footprint (header and payload)
    that fits an [intptr_t], and each ends where the next one starts, the
    last one at [top]. *)
Fixpoint tiled (a : abi) (hs : gmap Z metadata.t) (l : list Z) (top : Z) : bool :=
  match l with
  | [] => true
  | x :: l' =>
      match hs !! x with
      | Some h =>
          (0 <? x) && (0 <? metadata.size h)
          && (sizeof_header a + metadata.size h <? 2 ^ (bits a - 1))
          && (x + sizeof_header a + metadata.size h =? hd top l')
          && tiled a hs l' top
      | None => false
      end
  end.

(** The allocator invariant, for the list [l] of the blocks of the arena:
    the links from [head] visit [l] and end in [NULL], [tail] is the last
    block, and the blocks tile the arena up to the break. *)
Definition inv (a : abi) (st : state) (l : list Z) : bool :=
  lseg (heap st) (head st) l NULL
  && (tail st =? List.last l NULL)
  && tiled a (heap st) l (brk st)
  && (0 <? brk st).

(** What the specification says of the list of a state whose blocks are
    [l]: [head] is empty iff [tail] is empty iff there is no block, the
    links visit the blocks in strictly increasing address order, and the
    last one is [tail], whose link is empty. *)
Definition list_shape (st : state) (l : list Z) : Prop :=
  lseg (heap st) (head st) l NULL = true ∧
  (head st = NULL ↔ l = []) ∧
  (tail st = NULL ↔ l = []) ∧
  StronglySorted Z.lt l ∧
  tail st = List.last l NULL ∧
  (l ≠ [] → metadata.next <$> heap st !! tail st = Some NULL).

(** The four entry points. *)
Inductive call : Set :=
| Malloc (size : Z)
| Free (block : Z)
| Calloc (num esize : Z)
| Realloc (block size : Z).

Definition run (a : abi) (fuel : nat) (st : state) (c : call) : outcome state :=
  match c with
  | Malloc size => '(_, st') ← malloc a fuel st size; Ret st'
  | Free block => free a fuel st block
  | Calloc num esize => '(_, st') ← calloc a fuel st num esize; Ret st'
  | Realloc block size => '(_, st') ← realloc a fuel st block size; Ret st'
  end.

(** A request size whose footprint fits the [intptr_t] argument of [sbrk]. *)
Definition size_ok (a : abi) (size : Z) : Prop :=
  size = 0 ∨ (0 < size ∧ sizeof_header a + size < 2 ^ (bits a - 1)).

(** A pointer a caller may pass: [NULL] or the payload of a block of [l]. *)
Definition pointer_ok (a : abi) (l : list Z) (block : Z) : Prop :=
  block = NULL ∨ block - sizeof_header a ∈ l.

(** Calls within the contract of the allocator, in a state with blocks [l]. *)
Definition valid_call (a : abi) (l : list Z) (c : call) : Prop :=
  match c with
  | Malloc size => size_ok a size
  | Free block => pointer_ok a l block
  | Calloc num esize =>
      0 <= num < 2 ^ bits a ∧ 0 <= esize < 2 ^ bits a ∧
      (2 ^ bits a <= num * esize ∨ size_ok a (num * esize))
  | Realloc block size => pointer_ok a l block ∧ size_ok a size
  end.

(** ** The diagnostic dump *)

(** A line that [print_memory] prints: the line of [head] and [tail], or
    the line of one block with its address, size, [is_free] and [next].
    The text that [printf] makes of these values is not modelled. *)
Inductive line : Set :=
| HeadTail (hd tl : Z)
| Block (addr size : Z) (is_free : bool) (next : Z).

(** The loop of [print_memory], from [curr]; [out] holds the lines printed
    so far.  The result is what has been printed and how the loop ended. *)
Fixpoint print_memory_loop (fuel : nat) (hs : gmap Z metadata.t) (curr : Z)
         (out : list line) : list line * outcome unit :=
  match fuel with
  | O => (out, Diverge)
  | S fuel' =>
      if curr =? NULL then (out, Ret tt)
      else
        match hs !! curr with
        | Some h =>
            print_memory_loop fuel' hs (metadata.next h)
              (out ++ [Block curr (metadata.size h) (metadata.is_free h)
                             (metadata.next h)])
        | None => (out, Fault)
        end
  end.

Definition print_memory (fuel : nat) (st : state) : list line * outcome unit :=
  print_memory_loop fuel (heap st) (head st) [HeadTail (head st) (tail st)].

(** The line of the block at [x]. *)
Definition block_line (hs : gmap Z metadata.t) (x : Z) : option line :=
  h ← hs !! x;
  Some (Block x (metadata.size h) (metadata.is_free h) (metadata.next h)).

(** ** The state after a growth of the arena *)

(** The state in which the growth path of [malloc] leaves the allocator
    for a request of [s] bytes: a header for [s] bytes at the old break,
    linked behind the old tail if there is one. *)
Definition carved (a : abi) (st : state) (s : Z) : state :=
  let hs1 := <[brk st := metadata.Build s false NULL]> (heap st) in
  let hs2 :=
    if tail st =? NULL then hs1
    else match heap st !! tail st with
         | Some t => <[tail st := metadata.set_next (brk st) t]> hs1
         | None => hs1
         end in
  State (if head st =? NULL then brk st else head st) (brk st) hs2
        (mem st) (brk st + (sizeof_header a + s)) (brk_max st).

(** ** Sequences of calls *)

(** The addresses of the blocks that the links from [p] visit, when they
    end in [NULL] within [fuel] steps. *)
Fixpoint block_list (fuel : nat) (hs : gmap Z metadata.t) (p : Z)
  : option (list Z) :=
  match fuel with
  | O => None
  | S fuel' =>
      if p =? NULL then Some []
      else match hs !! p with
           | Some h => cons p <$> block_list fuel' hs (metadata.next h)
           | None => None
           end
  end.

(** The calls of [cs], one after the other. *)
Fixpoint run_all (a : abi) (fuel : nat) (st : state) (cs : list call)
  : outcome state :=
  match cs with
  | [] => Ret st
  | c :: cs' => st' ← run a fuel st c; run_all a fuel st' cs'
  end.

(** Every call of [cs] is within the contract in the state in which it is
    made: its sizes fit, its pointer is [NULL] or the payload of a block
    that the list then holds, and the bound [fuel] exceeds the length of
    the list by two. *)
Fixpoint calls_ok (a : abi) (fuel : nat) (st : state) (cs : list call) : Prop :=
  match cs with
  | [] => True
  | c :: cs' =>
      (∃ l, block_list fuel (heap st) (head st) = Some l ∧
            valid_call a l c ∧ (length l + 1 < fuel)%nat) ∧
      ∀ st', run a fuel st c = Ret st' → calls_ok a fuel st' cs'
  end.

(** ** Example states (LP64: headers of 24 bytes) *)

(** No block yet; the break is at 4096 and may rise to 65536. *)
Definition st_fresh : state := State NULL NULL ∅ ∅ 4096 65536.


(** Four blocks: A (10 bytes, in use), B (20 bytes, free), C (30 bytes,
    free) and D (8 bytes, in use), whose payload ends at the break. *)
Definition blocks4 : gmap Z metadata.t :=
  <[4096 := metadata.Build 10 false 4130]>
    (<[4130 := metadata.Build 20 true 4174]>
       (<[4174 := metadata.Build 30 true 4228]>
          (<[4228 := metadata.Build 8 false NULL]> ∅))).

Definition st_blocks : state := State 4096 4228 blocks4 ∅ 4260 65536.

(** The same four blocks in an arena that cannot grow by 124 bytes. *)
Definition st_full : state := State 4096 4228 blocks4 ∅ 4260 4300.

(** The four blocks with two bytes written at the start of the payload
    of A. *)
Definition st_bytes : state :=
  State 4096 4228 blocks4 (<[4120 := x41]> (<[4121 := x42]> ∅)) 4260 65536.

(** The states of the run [malloc(1); malloc(2^64 - 24); malloc(2^64 - 24)]
    from [st_fresh]. *)
Definition st_one : state :=
  State 4096 4096 (<[4096 := metadata.Build 1 false NULL]> ∅) ∅ 4121 65536.

Definition st_over : state :=
  State 4096 4121
        (<[4096 := metadata.Build 1 false 4121]>
           (<[4121 := metadata.Build (2 ^ 64 - 24) false NULL]> ∅))
        ∅ 4121 65536.

Definition st_cyclic : state :=
  State 4096 4121
        (<[4096 := metadata.Build 1 false 4121]>
           (<[4121 := metadata.Build (2 ^ 64 - 24) false 4121]> ∅))
        ∅ 4121 65536.

(** ** Proofs *)

Ltac bools :=
  repeat match goal with
    | H : _ && _ = true |- _ => apply andb_true_iff in H; destruct H
    | H : negb _ = true |- _ => apply negb_true_iff in H
    | H : (_ =? _) = true |- _ => apply Z.eqb_eq in H
    | H : (_ =? _) = false |- _ => apply Z.eqb_neq in H
    | H : (_ <? _) = true |- _ => apply Z.ltb_lt in H
    | H : (_ <=? _) = true |- _ => apply Z.leb_le in H
    end.

Lemma eqb_false (x y : Z) : x ≠ y → (x =? y) = false.
Proof. apply Z.eqb_neq. Qed.

Lemma load_Some (hs : gmap Z metadata.t) (p : Z) (h : metadata.t) :
  hs !! p = Some h → load hs p = Ret h.
Proof. intros H. unfold load. now rewrite H. Qed.

Lemma lseg_cons (hs : gmap Z metadata.t) (p x : Z) (l : list Z) (q : Z) :
  lseg hs p (x :: l) q = true →
  p = x ∧ x ≠ NULL ∧ ∃ h, hs !! x = Some h ∧ lseg hs (metadata.next h) l q = true.
Proof.
  simpl. intros H. bools.
  destruct (hs !! x) as [h|] eqn:E; [|discriminate].
  repeat split; [assumption.. |]. now exists h.
Qed.

(** The search skips a prefix of the list none of whose blocks fits. *)
Lemma check_for_block_loop_skip (hs : gmap Z metadata.t) (s : Z) (pre : list Z) :
  ∀ (p q : Z) (k : nat),
    lseg hs p pre q = true →
    no_fit hs s pre = true →
    check_for_block_loop (length pre + k) hs s p = check_for_block_loop k hs s q.
Proof.
  induction pre as [|x pre IH]; intros p q k Hseg Hno.
  - simpl in Hseg. bools. now subst.
  - apply lseg_cons in Hseg as (-> & Hx & h & Hh & Hseg).
    unfold no_fit in Hno. simpl in Hno. bools.
    unfold fits_at in H. rewrite Hh in H.
    cbn [length Nat.add check_for_block_loop].
    rewrite (eqb_false _ _ Hx), (load_Some _ _ _ Hh). cbn.
    rewrite H. now apply IH.
Qed.

(** Unlinking the tail: on a list [pre ++ [pred]] that leads to [tl] and
    does not contain it, the loop of [free] clears the link of [pred] and
    makes [pred] the tail. *)
Lemma free_loop_unlink (tl pred : Z) (hp : metadata.t) (pre : list Z) :
  ∀ (hs : gmap Z metadata.t) (p : Z) (k : nat),
    lseg hs p (pre ++ [pred]) tl = true →
    absent tl (pre ++ [pred]) = true →
    hs !! pred = Some hp →
    free_loop (length pre + S (S k)) hs tl p =
      Ret (<[pred := metadata.set_next NULL hp]> hs, pred).
Proof.
  induction pre as [|x pre IH]; intros hs p k Hseg Habs Hp.
  - apply lseg_cons in Hseg as (-> & Hx & h & Hh & Hseg).
    simpl in Hseg. bools. rewrite Hp in Hh. injection Hh as <-.
    cbn [app length Nat.add free_loop].
    rewrite (eqb_false _ _ Hx), (load_Some _ _ _ Hp).
    cbn [mbind outcome_bind].
    apply Z.eqb_eq in Hseg. rewrite Hseg.
    unfold load. rewrite lookup_insert_eq. reflexivity.
  - change ((x :: pre) ++ [pred]) with (x :: (pre ++ [pred])) in Hseg, Habs.
    apply lseg_cons in Hseg as (-> & Hx & h & Hh & Hseg).
    unfold absent in Habs. cbn [forallb] in Habs. bools.
    assert (Hnext : metadata.next h ≠ tl).
    { destruct (pre ++ [pred]) as [|y r] eqn:E.
      - destruct pre; discriminate.
      - apply lseg_cons in Hseg as (-> & _). cbn [forallb] in H0. bools.
        assumption. }
    cbn [length Nat.add free_loop].
    rewrite (eqb_false _ _ Hx), (load_Some _ _ _ Hh).
    cbn [mbind outcome_bind].
    rewrite (eqb_false _ _ Hnext), (load_Some _ _ _ Hh).
    cbn [mbind outcome_bind].
    now apply IH.
Qed.

Section Claims.
Variable a : abi.

(** The decrement [free] passes to [sbrk] is the footprint of the block,
    negated, whenever a growth of the arena can have carved that block. *)
Lemma shrink_argument (sz : Z) :
  0 <= sz →
  sizeof_header a + sz < 2 ^ (bits a - 1) →
  to_intptr a (wrap a (0 - sizeof_header a - sz)) = - (sizeof_header a + sz).
Proof.
  unfold to_intptr, wrap.
  destruct a.
  - change (sizeof_header ILP32) with 16.
    change (2 ^ (bits ILP32 - 1)) with 2147483648.
    change (2 ^ bits ILP32) with 4294967296.
    intros H0 H1.
    replace ((0 - 16 - sz) mod 4294967296) with (4294967296 - (16 + sz)).
    + destruct (Z.ltb_spec (4294967296 - (16 + sz)) 2147483648); lia.
    + apply Z.mod_unique_pos with (q := -1); lia.
  - change (sizeof_header LP64) with 24.
    change (2 ^ (bits LP64 - 1)) with 9223372036854775808.
    change (2 ^ bits LP64) with 18446744073709551616.
    intros H0 H1.
    replace ((0 - 24 - sz) mod 18446744073709551616)
      with (18446744073709551616 - (24 + sz)).
    + destruct (Z.ltb_spec (18446744073709551616 - (24 + sz)) 9223372036854775808); lia.
    + apply Z.mod_unique_pos with (q := -1); lia.
Qed.

Lemma sizeof_header_pos : 0 < sizeof_header a.
Proof. destruct a; reflexivity. Qed.

(** The search stops at the first block that fits. *)
Lemma check_for_block_hit (fuel : nat) (st : state) (s : Z)
      (pre : list Z) (b : Z) (hb : metadata.t) :
  lseg (heap st) (head st) pre b = true →
  no_fit (heap st) s pre = true →
  b ≠ NULL →
  heap st !! b = Some hb →
  metadata.is_free hb = true →
  s <= metadata.size hb →
  (length pre < fuel)%nat →
  check_for_block fuel st s = Ret b.
Proof.
  intros Hseg Hno Hb Hhb Hfree Hcap Hfuel. unfold check_for_block.
  replace fuel with (length pre + S (fuel - length pre - 1))%nat by lia.
  rewrite (check_for_block_loop_skip _ _ _ _ _ _ Hseg Hno).
  cbn [check_for_block_loop].
  rewrite (eqb_false _ _ Hb), (load_Some _ _ _ Hhb). cbn [mbind outcome_bind].
  apply Z.leb_le in Hcap. now rewrite Hfree, Hcap.
Qed.

(** The search returns [NULL] at the end of a list without a fit. *)
Lemma check_for_block_miss (fuel : nat) (st : state) (s : Z) (l : list Z) :
  lseg (heap st) (head st) l NULL = true →
  no_fit (heap st) s l = true →
  (length l < fuel)%nat →
  check_for_block fuel st s = Ret NULL.
Proof.
  intros Hseg Hno Hfuel. unfold check_for_block.
  replace fuel with (length l + S (fuel - length l - 1))%nat by lia.
  now rewrite (check_for_block_loop_skip _ _ _ _ _ _ Hseg Hno).
Qed.

(** The reuse path of [malloc]. *)
Lemma malloc_reuse (fuel : nat) (st : state) (s b : Z) (hb : metadata.t) :
  0 < s →
  check_for_block fuel st s = Ret b →
  b ≠ NULL →
  heap st !! b = Some hb →
  malloc a fuel st s =
    Ret (b + sizeof_header a,
         set_heap (<[b := metadata.set_is_free false hb]> (heap st)) st).
Proof.
  intros Hs Hsearch Hb Hhb.
  unfold malloc. rewrite eqb_false, Hsearch by lia. cbn [mbind outcome_bind].
  now rewrite (eqb_false _ _ Hb), (load_Some _ _ _ Hhb).
Qed.

(** The path of [malloc] on which [sbrk] reports an error. *)
Lemma malloc_refused (fuel : nat) (st : state) (s : Z) :
  0 < s →
  check_for_block fuel st s = Ret NULL →
  sbrk st (to_intptr a (wrap a (sizeof_header a + s))) = None →
  malloc a fuel st s = Ret (NULL, st).
Proof.
  intros Hs Hsearch Hfail.
  unfold malloc. rewrite eqb_false, Hsearch by lia. cbn [mbind outcome_bind].
  change (NULL =? NULL) with true. cbn [negb]. now rewrite Hfail.
Qed.


(** C4. For a request [s > 0], when no block of the list fits and the arena
    growth primitive refuses to extend the region, [malloc] returns [NULL]
    and the state (head, tail, every header, the payload bytes and the
    arena boundary) is the state before the call. *)
Theorem malloc_growth_failure (fuel : nat) (st : state) (s : Z) (l : list Z) :
  0 < s →
  lseg (heap st) (head st) l NULL = true →
  no_fit (heap st) s l = true →
  sbrk st (to_intptr a (wrap a (sizeof_header a + s))) = None →
  (length l < fuel)%nat →
  malloc a fuel st s = Ret (NULL, st).
Proof.
  intros Hs Hseg Hno Hfail Hfuel.
  pose proof (check_for_block_miss fuel st s l Hseg Hno Hfuel) as Hsearch.
  unfold malloc. rewrite eqb_false, Hsearch by lia. cbn [mbind outcome_bind].
  change (NULL =? NULL) with true. cbn [negb]. now rewrite Hfail.
Qed.

(** What [free] hands to [sbrk] for a block at the break moves the break
    down by the footprint of the block. *)
Lemma sbrk_shrink (st : state) (sz : Z) :
  0 <= sz →
  sizeof_header a + sz < 2 ^ (bits a - 1) →
  snd (sbrk_result st (sbrk st (to_intptr a (wrap a (0 - sizeof_header a - sz)))))
  = set_brk (brk st - (sizeof_header a + sz)) st.
Proof.
  intros Hsz Hfoot. pose proof sizeof_header_pos as Hpos.
  rewrite (shrink_argument _ Hsz Hfoot). unfold sbrk.
  rewrite (eqb_false (- (sizeof_header a + sz)) 0) by lia.
  destruct (Z.ltb_spec (- (sizeof_header a + sz)) 0) as [_|]; [|lia].
  cbn [sbrk_result snd]. f_equal.
Qed.

(** The path of [free] that returns the only block to the environment. *)
Lemma free_shrink_single (fuel : nat) (st : state) (p : Z) (h : metadata.t) :
  p ≠ NULL →
  heap st !! (p - sizeof_header a) = Some h →
  p + metadata.size h = brk st →
  0 <= metadata.size h →
  sizeof_header a + metadata.size h < 2 ^ (bits a - 1) →
  head st = tail st →
  free a fuel st p =
    Ret (set_brk (brk st - (sizeof_header a + metadata.size h))
           (set_tail NULL (set_head NULL st))).
Proof.
  intros Hp Hh Hend Hsz Hfoot Heq.
  unfold free. rewrite (eqb_false _ _ Hp).
  cbn [sbrk Z.eqb sbrk_result]. rewrite (load_Some _ _ _ Hh).
  cbn [mbind outcome_bind]. apply Z.eqb_eq in Hend. rewrite Hend.
  apply Z.eqb_eq in Heq. rewrite Heq.
  cbn [mbind outcome_bind set_tail set_head heap].
  rewrite (load_Some _ _ _ Hh). cbn [mbind outcome_bind].
  now rewrite (sbrk_shrink _ _ Hsz Hfoot).
Qed.

(** The path of [free] that unlinks the last block and returns it to the
    environment. *)
Lemma free_shrink_unlink (fuel : nat) (st : state) (p : Z) (h : metadata.t)
      (pre : list Z) (pred : Z) (hp : metadata.t) :
  p ≠ NULL →
  heap st !! (p - sizeof_header a) = Some h →
  p + metadata.size h = brk st →
  0 <= metadata.size h →
  sizeof_header a + metadata.size h < 2 ^ (bits a - 1) →
  head st ≠ tail st →
  lseg (heap st) (head st) (pre ++ [pred]) (tail st) = true →
  absent (tail st) (pre ++ [pred]) = true →
  heap st !! pred = Some hp →
  (length pre + 1 < fuel)%nat →
  free a fuel st p =
    Ret (set_brk (brk st - (sizeof_header a + metadata.size h))
           (set_tail pred
              (set_heap (<[pred := metadata.set_next NULL hp]> (heap st)) st))).
Proof.
  intros Hp Hh Hend Hsz Hfoot Hne Hseg Habs Hpred Hfuel.
  unfold free. rewrite (eqb_false _ _ Hp).
  cbn [sbrk Z.eqb sbrk_result]. rewrite (load_Some _ _ _ Hh).
  cbn [mbind outcome_bind]. apply Z.eqb_eq in Hend. rewrite Hend.
  rewrite (eqb_false _ _ Hne).
  replace fuel with (length pre + S (S (fuel - length pre - 2)))%nat by lia.
  rewrite (free_loop_unlink _ _ _ _ _ _ _ Hseg Habs Hpred).
  cbn [mbind outcome_bind set_tail set_heap heap].
  assert (Hl : ∃ h1, load (<[pred := metadata.set_next NULL hp]> (heap st))
                          (p - sizeof_header a) = Ret h1
                     ∧ metadata.size h1 = metadata.size h).
  { unfold load. rewrite lookup_insert. destruct (decide _) as [E|_].
    - rewrite <- E, Hpred in Hh. injection Hh as <-.
      eexists. split; reflexivity.
    - rewrite Hh. eexists. split; reflexivity. }
  destruct Hl as (h1 & -> & Hs1). cbn [mbind outcome_bind].
  rewrite Hs1. now rewrite (sbrk_shrink _ _ Hsz Hfoot).
Qed.


(** The path of [free] that keeps the block for reuse. *)
Lemma free_mark (fuel : nat) (st : state) (p : Z) (h : metadata.t) :
  p ≠ NULL →
  heap st !! (p - sizeof_header a) = Some h →
  p + metadata.size h ≠ brk st →
  free a fuel st p =
    Ret (set_heap (<[p - sizeof_header a := metadata.set_is_free true h]>
                     (heap st)) st).
Proof.
  intros Hp Hh Hend. unfold free. rewrite (eqb_false _ _ Hp).
  cbn [sbrk Z.eqb sbrk_result]. rewrite (load_Some _ _ _ Hh).
  cbn [mbind outcome_bind]. now rewrite (eqb_false _ _ Hend).
Qed.


(** The division test of [calloc] fails exactly when the product does not
    fit in a [size_t]. *)
Lemma calloc_check_iff (num esize : Z) :
  0 < num → 0 <= esize →
  (esize =? wrap a (num * esize) / num) = false ↔ 2 ^ bits a <= num * esize.
Proof.
  intros Hn He. unfold wrap.
  assert (HM : 0 < 2 ^ bits a) by (destruct a; reflexivity).
  set (M := 2 ^ bits a) in *.
  rewrite Z.eqb_neq. split.
  - intros Hne. destruct (Z.lt_ge_cases (num * esize) M) as [Hlt|]; [|assumption].
    exfalso. apply Hne. rewrite Z.mod_small by nia.
    rewrite Z.mul_comm, Z.div_mul by lia. reflexivity.
  - intros Hge Heq.
    assert (Hq : 1 <= num * esize / M) by (apply Z.div_le_lower_bound; lia).
    pose proof (Z.mod_eq (num * esize) M ltac:(lia)) as Hm.
    assert (Hlt : (num * esize) mod M < num * esize) by nia.
    apply (Z.div_lt_upper_bound _ num esize) in Hlt; lia.
Qed.

(** C5. [calloc] returns [NULL] and leaves the state as it was (nothing is
    allocated, the arena does not grow) when [num] or [esize] is zero and
    when [num * esize] does not fit in a [size_t]; the overflow is found by
    dividing the wrapped product by [num] and comparing with [esize], a
    test that fails exactly on overflow. *)
Theorem calloc_rejects_zero_and_overflow (fuel : nat) (st : state) (num esize : Z) :
  0 <= num < 2 ^ bits a →
  0 <= esize < 2 ^ bits a →
  (num = 0 ∨ esize = 0 ∨ 2 ^ bits a <= num * esize →
   calloc a fuel st num esize = Ret (NULL, st))
  ∧
  (num ≠ 0 →
   ((esize =? wrap a (num * esize) / num) = false ↔ 2 ^ bits a <= num * esize)).
Proof.
  intros Hn He. split.
  - intros Hcase. unfold calloc.
    destruct (Z.eqb_spec num 0) as [|Hn0]; [reflexivity|].
    destruct (Z.eqb_spec esize 0) as [|He0]; [reflexivity|].
    cbn [orb].
    destruct Hcase as [?|[?|Hov]]; [contradiction..|].
    apply calloc_check_iff in Hov; [|lia..]. rewrite Hov. reflexivity.
  - intros Hn0. apply calloc_check_iff; lia.
Qed.

(** C6. For a non-null [p] whose header records a capacity of at least
    [n > 0], [realloc] returns [p] itself and the state is the state before
    the call: nothing is copied, shrunk or adjusted. *)
Theorem realloc_enough_capacity (fuel : nat) (st : state) (p n : Z)
        (h : metadata.t) :
  p ≠ NULL →
  0 < n →
  heap st !! (p - sizeof_header a) = Some h →
  n <= metadata.size h →
  realloc a fuel st p n = Ret (p, st).
Proof.
  intros Hp Hn Hh Hcap. unfold realloc.
  rewrite (eqb_false _ _ Hp), eqb_false by lia. cbn [orb].
  rewrite (load_Some _ _ _ Hh). cbn [mbind outcome_bind].
  apply Z.leb_le in Hcap. rewrite Hcap. reflexivity.
Qed.

(** A [malloc] that returns [NULL] keeps the flag and the size of every
    block with a non-null payload address, and all payload bytes. *)
Lemma malloc_null_keeps_block (fuel : nat) (st st1 : state) (n p : Z)
      (h : metadata.t) :
  p ≠ NULL →
  heap st !! (p - sizeof_header a) = Some h →
  malloc a fuel st n = Ret (NULL, st1) →
  mem st1 = mem st ∧
  ∃ h1, heap st1 !! (p - sizeof_header a) = Some h1 ∧
        metadata.is_free h1 = metadata.is_free h ∧
        metadata.size h1 = metadata.size h.
Proof.
  intros Hp Hh. unfold malloc.
  destruct (n =? 0); [intros [= <-]; eauto|].
  destruct (check_for_block fuel st n) as [hd| |]; cbn [mbind outcome_bind];
    [|discriminate..].
  destruct (hd =? NULL) eqn:Ehd; cbn [negb].
  - destruct (sbrk st _) as [[block st']|] eqn:Es; cbn [sbrk_result].
    + assert (Hst' : heap st' = heap st ∧ mem st' = mem st ∧ tail st' = tail st).
      { revert Es. unfold sbrk.
        repeat match goal with |- context [if ?c then _ else _] => destruct c end;
          intros [= <- <-]; auto. }
      destruct Hst' as (Hheap & Hmem & Htail).
      destruct (block =? -1); [intros [= <-]; eauto|].
      destruct (tail st' =? NULL) eqn:Etl; cbn [negb mbind outcome_bind].
      * intros [= Hblock <-]. cbn [heap mem set_heap set_tail set_head]. split; [assumption|].
        rewrite lookup_insert_ne, Hheap by (unfold NULL in *; lia). eauto.
      * unfold load. rewrite lookup_insert.
        destruct (decide (block = tail st')) as [Eq|Ne].
        -- cbn [mbind outcome_bind]. intros [= Hblock <-]. cbn [heap mem set_heap set_tail set_head].
           split; [assumption|]. rewrite <- Eq.
           rewrite lookup_insert_ne, lookup_insert_ne, Hheap
             by (unfold NULL in *; lia). eauto.
        -- destruct (heap st' !! tail st') as [t|] eqn:Et;
             cbn [mbind outcome_bind]; [|discriminate].
           intros [= Hblock <-]. cbn [heap mem set_heap set_tail set_head]. split; [assumption|].
           rewrite lookup_insert.
           destruct (decide (tail st' = p - sizeof_header a)) as [Eq|Ne'].
           ++ rewrite Eq, Hheap, Hh in Et. injection Et as <-. eauto.
           ++ rewrite lookup_insert_ne, Hheap by (unfold NULL in *; lia). eauto.
    + intros [= <-]. eauto.
  - destruct (load (heap st) hd) as [h'| |]; cbn [mbind outcome_bind];
      [|discriminate..].
    intros [= Hhd <-]. cbn [heap mem set_heap set_tail set_head]. split; [reflexivity|].
    rewrite lookup_insert_ne by (unfold NULL in *; lia). eauto.
Qed.

(** C7. For a non-null [p] of an allocated block whose capacity is below
    [n], when the nested [malloc n] returns [NULL], [realloc] returns [NULL]
    in the state that [malloc] left; the block of [p] is not released: its
    header is still there with [is_free] false and its size, and no payload
    byte has changed. *)
Theorem realloc_failure_keeps_block (fuel : nat) (st st1 : state) (p n : Z)
        (h : metadata.t) :
  p ≠ NULL →
  heap st !! (p - sizeof_header a) = Some h →
  metadata.is_free h = false →
  metadata.size h < n →
  malloc a fuel st n = Ret (NULL, st1) →
  realloc a fuel st p n = Ret (NULL, st1) ∧
  mem st1 = mem st ∧
  ∃ h1, heap st1 !! (p - sizeof_header a) = Some h1 ∧
        metadata.is_free h1 = false ∧
        metadata.size h1 = metadata.size h.
Proof.
  intros Hp Hh Hfree Hcap Hm.
  destruct (malloc_null_keeps_block _ _ _ _ _ _ Hp Hh Hm) as (Hmem & h1 & H1 & Hf & Hs).
  split; [|split; [assumption|exists h1; repeat split; congruence]].
  unfold realloc. rewrite (eqb_false _ _ Hp). cbn [orb].
  destruct (n =? 0); [assumption|].
  rewrite (load_Some _ _ _ Hh). cbn [mbind outcome_bind].
  assert (Hle : (n <=? metadata.size h) = false) by (apply Z.leb_gt; lia).
  rewrite Hle, Hm. reflexivity.
Qed.

(** A block that the search returns is free and large enough. *)
Lemma check_for_block_loop_found (hs : gmap Z metadata.t) (s : Z) (fuel : nat) :
  ∀ p x : Z,
    check_for_block_loop fuel hs s p = Ret x → x ≠ NULL →
    ∃ h, hs !! x = Some h ∧ metadata.is_free h = true ∧ s <= metadata.size h.
Proof.
  induction fuel as [|fuel IH]; intros p x; [discriminate|].
  cbn [check_for_block_loop].
  destruct (p =? NULL); [intros [= <-]; contradiction|].
  unfold load. destruct (hs !! p) as [h|] eqn:Eh; cbn [mbind outcome_bind];
    [|discriminate].
  destruct (metadata.is_free h && (s <=? metadata.size h)) eqn:Efit.
  - intros [= <-] _. bools. now exists h.
  - apply IH.
Qed.

(** Every non-null pointer that [malloc] returns lies exactly one header
    size past a header that is marked in use and records a capacity of at
    least the request; [free] and [realloc] find that header again at
    [block - sizeof_header]. *)
Lemma malloc_result_has_header (fuel : nat) (st st' : state) (s p : Z) :
  malloc a fuel st s = Ret (p, st') →
  p ≠ NULL →
  ∃ h, heap st' !! (p - sizeof_header a) = Some h ∧
       metadata.is_free h = false ∧ s <= metadata.size h.
Proof.
  unfold malloc.
  destruct (s =? 0); [intros [= <- <-]; contradiction|].
  unfold check_for_block.
  destruct (check_for_block_loop fuel (heap st) s (head st)) as [hd| |] eqn:Ec;
    cbn [mbind outcome_bind]; [|discriminate..].
  destruct (hd =? NULL) eqn:Ehd; cbn [negb].
  - destruct (sbrk_result st _) as [block st1].
    destruct (block =? -1); [intros [= <- <-]; contradiction|].
    destruct (tail st1 =? NULL); cbn [negb mbind outcome_bind].
    + intros [= <- <-] _. cbn [heap set_heap set_head set_tail].
      replace (block + sizeof_header a - sizeof_header a) with block by lia.
      rewrite lookup_insert_eq. eexists. repeat split. cbn. lia.
    + unfold load.
      destruct (<[block := metadata.Build s false NULL]> (heap st1) !! tail st1)
        as [t|] eqn:Et; cbn [mbind outcome_bind]; [|discriminate].
      intros [= <- <-] _. cbn [heap set_heap set_head set_tail].
      replace (block + sizeof_header a - sizeof_header a) with block by lia.
      rewrite lookup_insert. destruct (decide (tail st1 = block)) as [E|_].
      * rewrite E, lookup_insert_eq in Et. injection Et as <-.
        eexists. repeat split. cbn. lia.
      * rewrite lookup_insert_eq. eexists. repeat split. cbn. lia.
  - bools.
    destruct (check_for_block_loop_found _ _ _ _ _ Ec Ehd) as (h & Hh & _ & Hcap).
    rewrite (load_Some _ _ _ Hh). cbn [mbind outcome_bind].
    intros [= <- <-] _. cbn [heap set_heap].
    replace (hd + sizeof_header a - sizeof_header a) with hd by lia.
    rewrite lookup_insert_eq. eexists. repeat split. assumption.
Qed.

(** C10. [realloc p 0] is [malloc 0]: it returns [NULL] and the state is
    the state before the call, so the block of [p] is not released, its
    [is_free] flag and its payload are as they were. *)
Theorem realloc_zero_size (fuel : nat) (st : state) (p : Z) :
  realloc a fuel st p 0 = Ret (NULL, st).
Proof.
  unfold realloc. rewrite orb_true_r. reflexivity.
Qed.

End Claims.


(** ** The invariant of the block list *)

Section Invariant.
Variable a : abi.

Lemma tiled_cons (hs : gmap Z metadata.t) (x : Z) (l : list Z) (top : Z) :
  tiled a hs (x :: l) top = true →
  ∃ h, hs !! x = Some h ∧ 0 < x ∧ 0 < metadata.size h ∧
       sizeof_header a + metadata.size h < 2 ^ (bits a - 1) ∧
       x + sizeof_header a + metadata.size h = hd top l ∧
       tiled a hs l top = true.
Proof.
  cbn [tiled]. destruct (hs !! x) as [h|]; [|discriminate].
  intros H. bools. exists h. repeat split; assumption.
Qed.

(** The links of a segment only depend on the [next] fields of its blocks. *)
Lemma lseg_ext (hs1 hs2 : gmap Z metadata.t) (q : Z) (l : list Z) :
  ∀ p : Z,
    (∀ x, x ∈ l → metadata.next <$> hs1 !! x = metadata.next <$> hs2 !! x) →
    lseg hs1 p l q = lseg hs2 p l q.
Proof.
  induction l as [|x l IH]; intros p Hext; [reflexivity|].
  cbn [lseg]. f_equal.
  pose proof (Hext x ltac:(apply elem_of_cons; auto)) as Hx.
  destruct (hs1 !! x) as [h1|], (hs2 !! x) as [h2|]; try discriminate; [|reflexivity].
  injection Hx as ->. apply IH. intros y Hy. apply Hext, elem_of_cons; auto.
Qed.

(** The tiling only depends on the [size] fields of its blocks. *)
Lemma tiled_ext (hs1 hs2 : gmap Z metadata.t) (top : Z) (l : list Z) :
  (∀ x, x ∈ l → metadata.size <$> hs1 !! x = metadata.size <$> hs2 !! x) →
  tiled a hs1 l top = tiled a hs2 l top.
Proof.
  induction l as [|x l IH]; intros Hext; [reflexivity|].
  cbn [tiled].
  pose proof (Hext x ltac:(apply elem_of_cons; auto)) as Hx.
  rewrite IH by (intros y Hy; apply Hext, elem_of_cons; auto).
  destruct (hs1 !! x) as [h1|], (hs2 !! x) as [h2|]; try discriminate; [|reflexivity].
  injection Hx as ->. reflexivity.
Qed.

Lemma lseg_app_intro (hs : gmap Z metadata.t) (m q : Z) (l1 l2 : list Z) :
  ∀ p : Z,
    lseg hs p l1 m = true → lseg hs m l2 q = true →
    lseg hs p (l1 ++ l2) q = true.
Proof.
  induction l1 as [|x l1 IH]; intros p H1 H2.
  - simpl in H1. bools. now subst.
  - apply lseg_cons in H1 as (-> & Hx & h & Hh & H1).
    cbn [app lseg]. rewrite Z.eqb_refl, (eqb_false _ _ Hx), Hh. cbn [negb andb].
    now apply IH.
Qed.

Lemma lseg_app_elim (hs : gmap Z metadata.t) (q : Z) (l1 l2 : list Z) :
  ∀ p : Z,
    lseg hs p (l1 ++ l2) q = true →
    ∃ m, lseg hs p l1 m = true ∧ lseg hs m l2 q = true.
Proof.
  induction l1 as [|x l1 IH]; intros p H.
  - exists p. split; [apply Z.eqb_refl | assumption].
  - change ((x :: l1) ++ l2) with (x :: (l1 ++ l2)) in H.
    apply lseg_cons in H as (-> & Hx & h & Hh & H).
    destruct (IH _ H) as (m & H1 & H2). exists m. split; [|assumption].
    cbn [lseg]. rewrite Z.eqb_refl, (eqb_false _ _ Hx), Hh. assumption.
Qed.

Lemma hd_app (top : Z) (l1 l2 : list Z) :
  hd top (l1 ++ l2) = hd (hd top l2) l1.
Proof. destruct l1; reflexivity. Qed.

Lemma tiled_app (hs : gmap Z metadata.t) (top : Z) (l1 l2 : list Z) :
  tiled a hs (l1 ++ l2) top = tiled a hs l1 (hd top l2) && tiled a hs l2 top.
Proof.
  induction l1 as [|x l1 IH]; [reflexivity|].
  cbn [app tiled]. rewrite IH, hd_app.
  destruct (hs !! x); [|reflexivity].
  now rewrite !andb_assoc.
Qed.

(** Every block of a tiling lies between its first block and [top]. *)
Lemma tiled_bounds (hs : gmap Z metadata.t) (top : Z) (l : list Z) :
  tiled a hs l top = true →
  ∀ x, x ∈ l → hd top l <= x < top.
Proof.
  pose proof (sizeof_header_pos a) as Hpos.
  induction l as [|y l IH]; intros Ht x Hx.
  - now apply elem_of_nil in Hx.
  - apply tiled_cons in Ht as (h & Hh & Hy & Hsz & _ & Hend & Ht).
    specialize (IH Ht). cbn [hd].
    assert (Hytop : y < top).
    { destruct l as [|z l]; cbn [hd] in Hend; [lia|].
      pose proof (IH z ltac:(apply elem_of_cons; auto)). lia. }
    apply elem_of_cons in Hx as [->|Hx]; [lia|].
    pose proof (IH x Hx). lia.
Qed.

Lemma tiled_sorted (hs : gmap Z metadata.t) (top : Z) (l : list Z) :
  tiled a hs l top = true → StronglySorted Z.lt l.
Proof.
  pose proof (sizeof_header_pos a) as Hpos.
  induction l as [|y l IH]; intros Ht; [constructor|].
  pose proof (tiled_cons _ _ _ _ Ht) as (h & Hh & Hy & Hsz & _ & Hend & Ht').
  constructor; [now apply IH|].
  apply Forall_forall. intros x Hx.
  pose proof (tiled_bounds _ _ _ Ht' x Hx). lia.
Qed.

Lemma tiled_lookup (hs : gmap Z metadata.t) (top : Z) (l : list Z) (x : Z) :
  tiled a hs l top = true → x ∈ l →
  ∃ h, hs !! x = Some h ∧ 0 < x ∧ 0 < metadata.size h ∧
       sizeof_header a + metadata.size h < 2 ^ (bits a - 1).
Proof.
  induction l as [|y l IH]; intros Ht Hx.
  - now apply elem_of_nil in Hx.
  - apply tiled_cons in Ht as (h & Hh & Hy & Hsz & Hfoot & _ & Ht).
    apply elem_of_cons in Hx as [->|Hx]; [|now apply IH].
    exists h. repeat split; assumption.
Qed.

(** The block that ends at [top] is the last one. *)
Lemma tiled_last (hs : gmap Z metadata.t) (top : Z) (x : Z) (h : metadata.t) :
  ∀ l : list Z,
    tiled a hs l top = true → x ∈ l → hs !! x = Some h →
    x + sizeof_header a + metadata.size h = top →
    ∃ l0, l = l0 ++ [x].
Proof.
  induction l as [|y l IH]; intros Ht Hx Hh Hend.
  - now apply elem_of_nil in Hx.
  - pose proof (tiled_cons _ _ _ _ Ht) as (hy & Hhy & _ & _ & _ & Hnext & Ht').
    destruct l as [|z l].
    + apply elem_of_cons in Hx as [->|Hx]; [now exists []|].
      now apply elem_of_nil in Hx.
    + apply elem_of_cons in Hx as [->|Hx].
      * pose proof (tiled_bounds _ _ _ Ht' z ltac:(apply elem_of_cons; auto)).
        rewrite Hh in Hhy. injection Hhy as <-. cbn [hd] in Hnext. lia.
      * destruct (IH Ht' Hx Hh Hend) as (l0 & E). exists (y :: l0).
        now rewrite E.
Qed.

Lemma absent_intro (x : Z) (l : list Z) :
  (∀ y, y ∈ l → y ≠ x) → absent x l = true.
Proof.
  intros H. unfold absent. apply forallb_forall. intros y Hy.
  apply negb_true_iff, Z.eqb_neq, H, list_elem_of_In, Hy.
Qed.

(** The last block of a list that ends in [NULL] has an empty link. *)
Lemma lseg_last (hs : gmap Z metadata.t) (p t : Z) (l : list Z) :
  lseg hs p (l ++ [t]) NULL = true →
  lseg hs p l t = true ∧ t ≠ NULL ∧
  ∃ ht, hs !! t = Some ht ∧ metadata.next ht = NULL.
Proof.
  intros H. apply lseg_app_elim in H as (m & H1 & H2).
  apply lseg_cons in H2 as (-> & Ht & ht & Hht & H2). simpl in H2. bools.
  repeat split; [assumption..|]. now exists ht.
Qed.

Lemma lseg_singleton (hs : gmap Z metadata.t) (t q : Z) (ht : metadata.t) :
  t ≠ NULL → hs !! t = Some ht → metadata.next ht = q →
  lseg hs t [t] q = true.
Proof.
  intros Ht Hht Hq. cbn [lseg].
  rewrite Z.eqb_refl, (eqb_false _ _ Ht), Hht, Hq. apply Z.eqb_refl.
Qed.

Lemma inv_elim (st : state) (l : list Z) :
  inv a st l = true →
  lseg (heap st) (head st) l NULL = true ∧
  tail st = List.last l NULL ∧
  tiled a (heap st) l (brk st) = true ∧
  0 < brk st.
Proof. unfold inv. intros H. bools. auto. Qed.

Lemma inv_intro (st : state) (l : list Z) :
  lseg (heap st) (head st) l NULL = true →
  tail st = List.last l NULL →
  tiled a (heap st) l (brk st) = true →
  0 < brk st →
  inv a st l = true.
Proof.
  intros H1 H2 H3 H4. unfold inv. rewrite H1, H3. cbn [andb].
  apply andb_true_iff. split; [|now apply Z.ltb_lt].
  apply andb_true_iff. split; [now apply Z.eqb_eq | reflexivity].
Qed.

(** The invariant gives the list the shape that the specification states. *)
Lemma inv_list_shape (st : state) (l : list Z) :
  inv a st l = true → list_shape st l.
Proof.
  intros H. apply inv_elim in H as (Hseg & Htail & Htiled & Hbrk).
  unfold list_shape. split; [assumption|].
  destruct l as [|x l0] using rev_ind.
  - simpl in Hseg, Htail. bools.
    repeat split; try tauto; try constructor; try congruence.
  - clear IHl0. rewrite last_last in Htail.
    pose proof (lseg_last _ _ _ _ Hseg) as (Hpre & Hx & hx & Hhx & Hnext).
    assert (Hne : l0 ++ [x] ≠ []) by (destruct l0; discriminate).
    assert (Hhead : head st ≠ NULL).
    { destruct l0 as [|y l0]; simpl in Hpre.
      - bools. congruence.
      - bools. congruence. }
    repeat split; try tauto; try congruence.
    + eapply tiled_sorted, Htiled.
    + now rewrite last_last.
    + intros _. rewrite Htail, Hhx. cbn. now rewrite Hnext.
Qed.

(** A request whose footprint fits [intptr_t] reaches [sbrk] as it is. *)
Lemma to_intptr_request (s : Z) :
  0 < s →
  sizeof_header a + s < 2 ^ (bits a - 1) →
  to_intptr a (wrap a (sizeof_header a + s)) = sizeof_header a + s.
Proof.
  unfold to_intptr, wrap.
  destruct a.
  - change (sizeof_header ILP32) with 16.
    change (2 ^ (bits ILP32 - 1)) with 2147483648.
    change (2 ^ bits ILP32) with 4294967296.
    intros H0 H1. rewrite Z.mod_small by lia.
    destruct (Z.ltb_spec (16 + s) 2147483648); lia.
  - change (sizeof_header LP64) with 24.
    change (2 ^ (bits LP64 - 1)) with 9223372036854775808.
    change (2 ^ bits LP64) with 18446744073709551616.
    intros H0 H1. rewrite Z.mod_small by lia.
    destruct (Z.ltb_spec (24 + s) 9223372036854775808); lia.
Qed.

(** The growth path of [malloc], up to the write of [tail->next]. *)
Lemma malloc_grow (fuel : nat) (st : state) (s : Z) (l : list Z) :
  0 < s →
  sizeof_header a + s < 2 ^ (bits a - 1) →
  lseg (heap st) (head st) l NULL = true →
  no_fit (heap st) s l = true →
  0 < brk st →
  brk st + (sizeof_header a + s) <= brk_max st →
  (length l < fuel)%nat →
  malloc a fuel st s =
    (let hs1 := <[brk st := metadata.Build s false NULL]> (heap st) in
     hs2 ← (if negb (tail st =? NULL)
            then t ← load hs1 (tail st);
                 Ret (<[tail st := metadata.set_next (brk st) t]> hs1)
            else Ret hs1);
     Ret (brk st + sizeof_header a,
          State (if head st =? NULL then brk st else head st) (brk st) hs2
                (mem st) (brk st + (sizeof_header a + s)) (brk_max st))).
Proof.
  intros Hs Hfoot Hseg Hno Hbrk Hroom Hfuel.
  pose proof (sizeof_header_pos a) as Hpos.
  unfold malloc. rewrite eqb_false by lia.
  unfold check_for_block.
  replace fuel with (length l + S (fuel - length l - 1))%nat by lia.
  rewrite (check_for_block_loop_skip _ _ _ _ _ _ Hseg Hno).
  cbn [check_for_block_loop]. change (NULL =? NULL) with true.
  cbn [mbind outcome_bind negb].
  change (NULL =? NULL) with true. cbn [negb].
  rewrite (to_intptr_request _ Hs Hfoot). unfold sbrk.
  rewrite (eqb_false (sizeof_header a + s) 0) by lia.
  destruct (Z.ltb_spec (sizeof_header a + s) 0) as [|_]; [lia|].
  destruct (Z.leb_spec (brk st + (sizeof_header a + s)) (brk_max st)) as [_|]; [|lia].
  cbn [sbrk_result]. rewrite (eqb_false (brk st) (-1)) by lia.
  reflexivity.
Qed.

Lemma first_fit_split (hs : gmap Z metadata.t) (s : Z) (l : list Z) :
  no_fit hs s l = true ∨
  ∃ pre b post,
    l = pre ++ b :: post ∧ no_fit hs s pre = true ∧ fits_at hs s b = true.
Proof.
  induction l as [|x l IH]; [now left|].
  destruct (fits_at hs s x) eqn:E.
  - right. now exists [], x, l.
  - destruct IH as [Hno|(pre & b & post & -> & Hno & Hb)].
    + left. unfold no_fit in *. cbn [forallb]. now rewrite E.
    + right. exists (x :: pre), b, post. repeat split; [|assumption].
      unfold no_fit in *. cbn [forallb]. now rewrite E.
Qed.

Lemma insert_same_next (hs : gmap Z metadata.t) (b : Z) (hb hb' : metadata.t) :
  hs !! b = Some hb → metadata.next hb' = metadata.next hb →
  ∀ x, metadata.next <$> <[b := hb']> hs !! x = metadata.next <$> hs !! x.
Proof.
  intros Hb Hn x. rewrite lookup_insert. destruct (decide (b = x)) as [<-|].
  - rewrite Hb. cbn. now rewrite Hn.
  - reflexivity.
Qed.

Lemma insert_same_size (hs : gmap Z metadata.t) (b : Z) (hb hb' : metadata.t) :
  hs !! b = Some hb → metadata.size hb' = metadata.size hb →
  ∀ x, metadata.size <$> <[b := hb']> hs !! x = metadata.size <$> hs !! x.
Proof.
  intros Hb Hn x. rewrite lookup_insert. destruct (decide (b = x)) as [<-|].
  - rewrite Hb. cbn. now rewrite Hn.
  - reflexivity.
Qed.

Lemma lseg_nonempty_head (hs : gmap Z metadata.t) (p q : Z) (l : list Z) :
  lseg hs p l q = true → l ≠ [] → p ≠ NULL ∧ p ∈ l.
Proof.
  destruct l as [|x l]; [congruence|]. intros H _.
  apply lseg_cons in H as (-> & Hx & _). split; [assumption|].
  apply elem_of_cons. auto.
Qed.

(** [malloc] keeps the invariant; the list of blocks stays or gains the
    block carved at the old break. *)
Lemma malloc_preserves (fuel : nat) (st : state) (s : Z) (l : list Z) :
  inv a st l = true →
  size_ok a s →
  (length l < fuel)%nat →
  ∃ p st' l',
    malloc a fuel st s = Ret (p, st') ∧
    inv a st' l' = true ∧
    (∀ x, x ∈ l → x ∈ l') ∧
    (length l' <= S (length l))%nat.
Proof.
  intros Hinv Hs Hfuel.
  pose proof (sizeof_header_pos a) as Hpos.
  pose proof (inv_elim _ _ Hinv) as (Hseg & Htail & Htiled & Hbrk).
  destruct Hs as [->|[Hs Hfoot]].
  { exists NULL, st, l. repeat split; auto. }
  destruct (first_fit_split (heap st) s l) as [Hno|(pre & b & post & -> & Hno & Hb)].
  - destruct (Z.leb_spec (brk st + (sizeof_header a + s)) (brk_max st))
      as [Hroom|Hfull].
    + rewrite (malloc_grow _ _ _ _ Hs Hfoot Hseg Hno Hbrk Hroom Hfuel).
      cbv zeta.
      destruct l as [|t l0 _] using rev_ind.
      * simpl in Hseg, Htail. bools. rewrite Htail, Hseg.
        change (NULL =? NULL) with true. cbn [negb mbind outcome_bind].
        eexists _, _, [brk st]. split; [reflexivity|].
        split; [|split; [intros x Hx; now apply elem_of_nil in Hx | simpl; lia]].
        apply inv_intro; cbn [heap head tail brk List.last].
        -- apply lseg_singleton with (ht := metadata.Build s false NULL);
             [unfold NULL; lia | apply lookup_insert_eq | reflexivity].
        -- reflexivity.
        -- cbn [tiled hd]. rewrite lookup_insert_eq. cbn [metadata.size].
           repeat (apply andb_true_iff; split); try reflexivity;
             [apply Z.ltb_lt; lia.. | apply Z.eqb_eq; lia].
        -- lia.
      * rewrite last_last in Htail.
        pose proof (lseg_last _ _ _ _ Hseg) as (Hpre & Ht & ht & Hht & Hnext).
        pose proof (lseg_nonempty_head _ _ _ _ Hseg ltac:(destruct l0; discriminate))
          as (Hhead & _).
        pose proof (tiled_bounds _ _ _ Htiled) as Hb.
        assert (Htb : t < brk st)
          by (apply Hb, elem_of_app; right; apply elem_of_cons; auto).
        rewrite tiled_app in Htiled. cbn [hd] in Htiled.
        apply andb_true_iff in Htiled as (Ht0 & Ht1).
        pose proof (tiled_bounds _ _ _ Ht0) as Hb0.
        rewrite Htail, (eqb_false _ _ Ht), (eqb_false _ _ Hhead).
        cbn [negb]. unfold load.
        rewrite lookup_insert_ne, Hht by lia. cbn [mbind outcome_bind].
        eexists _, _, ((l0 ++ [t]) ++ [brk st]). split; [reflexivity|].
        split; [|split; [intros x Hx; apply elem_of_app; auto
                        | rewrite !length_app; simpl; lia]].
        apply inv_intro; cbn [heap head tail brk].
        -- rewrite <- app_assoc. apply lseg_app_intro with (m := t).
           ++ rewrite <- Hpre. apply lseg_ext. intros x Hx.
              pose proof (Hb0 x Hx).
              rewrite !lookup_insert_ne by lia. reflexivity.
           ++ cbn [app lseg]. rewrite lookup_insert_eq. cbn [metadata.next metadata.set_next].
              rewrite lookup_insert_ne, lookup_insert_eq by lia.
              cbn [metadata.next].
              rewrite !Z.eqb_refl, (eqb_false _ _ Ht), (eqb_false (brk st) NULL)
                by (unfold NULL; lia).
              reflexivity.
        -- now rewrite last_last.
        -- rewrite tiled_app. cbn [hd]. apply andb_true_iff. split.
           ++ rewrite tiled_app. cbn [hd]. apply andb_true_iff. split.
              ** rewrite <- Ht0. apply tiled_ext. intros x Hx.
                 pose proof (Hb0 x Hx).
                 rewrite !lookup_insert_ne by lia. reflexivity.
              ** rewrite <- Ht1. apply tiled_ext. intros x Hx.
                 apply elem_of_cons in Hx as [->|Hx]; [|now apply elem_of_nil in Hx].
                 rewrite lookup_insert_eq, Hht. reflexivity.
           ++ cbn [tiled hd]. rewrite lookup_insert_ne, lookup_insert_eq by lia.
              cbn [metadata.size].
              repeat (apply andb_true_iff; split); try reflexivity;
                [apply Z.ltb_lt; lia.. | apply Z.eqb_eq; lia].
        -- lia.
    + exists NULL, st, l. split; [|auto].
      apply (malloc_refused a fuel st s Hs);
        [now apply check_for_block_miss with (l := l)|].
      rewrite (to_intptr_request _ Hs Hfoot). unfold sbrk.
      rewrite (eqb_false (sizeof_header a + s) 0) by lia.
      destruct (Z.ltb_spec (sizeof_header a + s) 0) as [|_]; [lia|].
      destruct (Z.leb_spec (brk st + (sizeof_header a + s)) (brk_max st)); [lia|].
      reflexivity.
  - apply lseg_app_elim in Hseg as (m & Hpre & Hrest).
    apply lseg_cons in Hrest as (-> & Hbn & hb & Hhb & Hrest).
    unfold fits_at in Hb. rewrite Hhb in Hb. bools.
    assert (Hfuel' : (length pre < fuel)%nat)
      by (rewrite length_app in Hfuel; simpl in Hfuel; lia).
    eexists _, _, (pre ++ b :: post).
    split; [apply (malloc_reuse a fuel st s b hb); auto;
            now apply check_for_block_hit with (pre := pre) (hb := hb)|].
    split; [|auto].
    apply inv_intro; cbn [heap head tail brk set_heap]; try assumption.
    + rewrite (lseg_ext _ (heap st)).
      * apply lseg_app_intro with (m := b); [assumption|].
        cbn [lseg]. now rewrite Z.eqb_refl, (eqb_false _ _ Hbn), Hhb.
      * intros x _. now apply insert_same_next with (hb := hb).
    + rewrite <- Htiled. apply tiled_ext. intros x _.
      now apply insert_same_size with (hb := hb).
Qed.

(** [free] keeps the invariant; the list of blocks stays or loses its
    last block. *)
Lemma free_preserves (fuel : nat) (st : state) (p : Z) (l : list Z) :
  inv a st l = true →
  pointer_ok a l p →
  (length l < fuel)%nat →
  ∃ st' l',
    free a fuel st p = Ret st' ∧ inv a st' l' = true ∧
    (length l' <= length l)%nat.
Proof.
  intros Hinv Hptr Hfuel.
  pose proof (sizeof_header_pos a) as Hpos.
  pose proof (inv_elim _ _ Hinv) as (Hseg & Htail & Htiled & Hbrk).
  destruct Hptr as [->|Hin].
  { exists st, l. repeat split; auto. }
  destruct (tiled_lookup _ _ _ _ Htiled Hin) as (h & Hh & Hx & Hsz & Hfoot).
  assert (Hp : p ≠ NULL) by (unfold NULL; lia).
  destruct (Z.eq_dec (p + metadata.size h) (brk st)) as [Hend|Hend].
  - destruct (tiled_last _ _ _ h l Htiled Hin Hh ltac:(lia)) as (l0 & ->).
    rewrite last_last in Htail.
    assert (Hsz0 : 0 <= metadata.size h) by lia.
    destruct l0 as [|pred l1 _] using rev_ind.
    + apply lseg_cons in Hseg as (Hhead & _).
      exists (set_brk (brk st - (sizeof_header a + metadata.size h))
                (set_tail NULL (set_head NULL st))), [].
      split; [apply free_shrink_single; congruence|]. split; [|simpl; lia].
      apply inv_intro; cbn [heap head tail brk set_brk set_tail set_head];
        try reflexivity. lia.
    + pose proof (lseg_last _ _ _ _ Hseg) as (Hpre & _).
      rewrite tiled_app in Htiled. cbn [hd] in Htiled.
      apply andb_true_iff in Htiled as (Ht0 & _).
      pose proof (tiled_bounds _ _ _ Ht0) as Hb0.
      pose proof (lseg_nonempty_head _ _ _ _ Hpre ltac:(destruct l1; discriminate))
        as (_ & Hhead).
      apply Hb0 in Hhead.
      assert (Hpin : pred ∈ l1 ++ [pred])
        by (apply elem_of_app; right; apply elem_of_cons; auto).
      destruct (tiled_lookup _ _ _ _ Ht0 Hpin) as (hp & Hhp & _).
      exists (set_brk (brk st - (sizeof_header a + metadata.size h))
                (set_tail pred
                   (set_heap (<[pred := metadata.Build (metadata.size hp)
                                          (metadata.is_free hp) NULL]> (heap st))
                      st))), (l1 ++ [pred]).
      split; [|split; [|rewrite !length_app; simpl; lia]].
      { apply free_shrink_unlink with (pre := l1); try assumption.
        - lia.
        - now rewrite Htail.
        - rewrite Htail. apply absent_intro. intros y Hy. apply Hb0 in Hy. lia.
        - rewrite !length_app in Hfuel. simpl in Hfuel. lia. }
      apply lseg_app_elim in Hpre as (m & Hl1 & Hlast).
      apply lseg_cons in Hlast as (-> & Hpn & _).
      pose proof Ht0 as Ht0'. rewrite tiled_app in Ht0'. cbn [hd] in Ht0'.
      apply andb_true_iff in Ht0' as (Ht1 & _).
      pose proof (tiled_bounds _ _ _ Ht1) as Hb1.
      apply inv_intro; cbn [heap head tail brk set_brk set_tail set_heap].
      * apply lseg_app_intro with (m := pred).
        -- rewrite <- Hl1. apply lseg_ext. intros y Hy. apply Hb1 in Hy.
           rewrite lookup_insert_ne by lia. reflexivity.
        -- apply lseg_singleton
             with (ht := metadata.Build (metadata.size hp) (metadata.is_free hp) NULL);
             [assumption | apply lookup_insert_eq | reflexivity].
      * now rewrite last_last.
      * replace (brk st - (sizeof_header a + metadata.size h))
          with (p - sizeof_header a) by lia.
        rewrite <- Ht0. apply tiled_ext. intros y _.
        now apply insert_same_size with (hb := hp).
      * lia.
  - exists (set_heap (<[p - sizeof_header a :=
                        metadata.Build (metadata.size h) true (metadata.next h)]>
                      (heap st)) st), l.
    split; [now apply free_mark|]. split; [|lia].
    apply inv_intro; cbn [heap head tail brk set_heap]; try assumption.
    + rewrite <- Hseg. apply lseg_ext. intros y _.
      now apply insert_same_next with (hb := h).
    + rewrite <- Htiled. apply tiled_ext. intros y _.
      now apply insert_same_size with (hb := h).
Qed.

(** [calloc] keeps the invariant. *)
Lemma calloc_preserves (fuel : nat) (st : state) (num esize : Z) (l : list Z) :
  inv a st l = true →
  valid_call a l (Calloc num esize) →
  (length l < fuel)%nat →
  ∃ p st' l', calloc a fuel st num esize = Ret (p, st') ∧ inv a st' l' = true.
Proof.
  intros Hinv (Hn & He & Hprod) Hfuel. unfold calloc.
  destruct (Z.eqb_spec num 0) as [|Hn0]; [now exists NULL, st, l|].
  destruct (Z.eqb_spec esize 0) as [|He0]; [now exists NULL, st, l|].
  cbn [orb].
  destruct (esize =? wrap a (num * esize) / num) eqn:Echk; cbn [negb];
    [|now exists NULL, st, l].
  assert (Hfit : num * esize < 2 ^ bits a).
  { destruct (Z.lt_ge_cases (num * esize) (2 ^ bits a)) as [|Hov]; [assumption|].
    apply (calloc_check_iff a num esize) in Hov; [congruence | lia | lia]. }
  destruct Hprod as [|Hok]; [lia|].
  unfold wrap. rewrite Z.mod_small by nia.
  destruct (malloc_preserves fuel st (num * esize) l Hinv Hok Hfuel)
    as (p & st1 & l1 & Hm & Hinv1 & _).
  rewrite Hm. cbn [mbind outcome_bind].
  destruct (p =? NULL); [now exists NULL, st1, l1|].
  now eexists _, _, l1.
Qed.

(** [realloc] keeps the invariant. *)
Lemma realloc_preserves (fuel : nat) (st : state) (p n : Z) (l : list Z) :
  inv a st l = true →
  valid_call a l (Realloc p n) →
  (length l + 1 < fuel)%nat →
  ∃ q st' l', realloc a fuel st p n = Ret (q, st') ∧ inv a st' l' = true.
Proof.
  intros Hinv (Hptr & Hsize) Hfuel. unfold realloc.
  destruct (malloc_preserves fuel st n l Hinv Hsize ltac:(lia))
    as (q & st1 & l1 & Hm & Hinv1 & Hsub & Hlen).
  destruct ((p =? NULL) || (n =? 0)) eqn:E; [now exists q, st1, l1|].
  apply orb_false_iff in E as (Hp & Hn). bools.
  destruct Hptr as [|Hin]; [contradiction|].
  pose proof (inv_elim _ _ Hinv) as (_ & _ & Htiled & _).
  destruct (tiled_lookup _ _ _ _ Htiled Hin) as (h & Hh & _).
  rewrite (load_Some _ _ _ Hh). cbn [mbind outcome_bind].
  destruct (n <=? metadata.size h); [now exists p, st, l|].
  rewrite Hm. cbn [mbind outcome_bind].
  destruct (q =? NULL); cbn [negb]; [now exists q, st1, l1|].
  pose proof (inv_elim _ _ Hinv1) as (_ & _ & Htiled1 & _).
  destruct (tiled_lookup _ _ _ _ Htiled1 (Hsub _ Hin)) as (h1 & Hh1 & _).
  rewrite (load_Some _ _ _ Hh1). cbn [mbind outcome_bind].
  set (st2 := set_mem _ st1).
  destruct (free_preserves fuel st2 p l1 Hinv1 (or_intror (Hsub _ Hin)) ltac:(lia))
    as (st3 & l3 & Hf & Hinv3 & _).
  rewrite Hf. cbn [mbind outcome_bind]. now exists q, st3, l3.
Qed.

(** X13. Every call within the contract returns and leaves a state that
    satisfies the invariant, hence a list with the shape the specification
    states. *)
Theorem calls_preserve_invariant (fuel : nat) (st : state) (l : list Z) (c : call) :
  inv a st l = true →
  valid_call a l c →
  (length l + 1 < fuel)%nat →
  ∃ st' l',
    run a fuel st c = Ret st' ∧ inv a st' l' = true ∧ list_shape st' l'.
Proof.
  intros Hinv Hvalid Hfuel. destruct c as [s|p|n e|p s]; cbn [run].
  - destruct (malloc_preserves fuel st s l Hinv Hvalid ltac:(lia))
      as (q & st' & l' & -> & Hinv' & _).
    exists st', l'. auto using inv_list_shape.
  - destruct (free_preserves fuel st p l Hinv Hvalid ltac:(lia))
      as (st' & l' & -> & Hinv' & _).
    exists st', l'. auto using inv_list_shape.
  - destruct (calloc_preserves fuel st n e l Hinv Hvalid ltac:(lia))
      as (q & st' & l' & -> & Hinv').
    exists st', l'. auto using inv_list_shape.
  - destruct (realloc_preserves fuel st p s l Hinv Hvalid Hfuel)
      as (q & st' & l' & -> & Hinv').
    exists st', l'. auto using inv_list_shape.
Qed.

End Invariant.

(** ** The claims at concrete inputs *)


Lemma malloc_growth_failure_witness :
  malloc LP64 5 st_full 100 = Ret (NULL, st_full).
Proof.
  apply (malloc_growth_failure LP64 5 st_full 100 [4096; 4130; 4174; 4228]);
    [lia | reflexivity | reflexivity | reflexivity | simpl; lia].
Defined.



Lemma calloc_rejects_zero_and_overflow_witness :
  calloc LP64 4 st_blocks (2 ^ 32) (2 ^ 32) = Ret (NULL, st_blocks).
Proof.
  apply (proj1 (calloc_rejects_zero_and_overflow LP64 4 st_blocks (2 ^ 32) (2 ^ 32)
                  ltac:(vm_compute; split; [discriminate | reflexivity])
                  ltac:(vm_compute; split; [discriminate | reflexivity]))).
  right. right. vm_compute. discriminate.
Defined.

Lemma realloc_enough_capacity_witness :
  realloc LP64 0 st_blocks 4120 7 = Ret (4120, st_blocks).
Proof.
  apply (realloc_enough_capacity LP64 0 st_blocks 4120 7
           (metadata.Build 10 false 4130));
    [discriminate | lia | reflexivity | simpl; lia].
Defined.

Lemma realloc_failure_keeps_block_witness :
  realloc LP64 5 st_full 4120 100 = Ret (NULL, st_full) ∧
  mem st_full = mem st_full ∧
  ∃ h1, heap st_full !! (4120 - sizeof_header LP64) = Some h1 ∧
        metadata.is_free h1 = false ∧
        metadata.size h1 = 10.
Proof.
  apply (realloc_failure_keeps_block LP64 5 st_full st_full 4120 100
           (metadata.Build 10 false 4130));
    [discriminate | reflexivity | reflexivity | simpl; lia | reflexivity].
Defined.

(** C8. On LP64 the header is 24 bytes, which is not a multiple of 16: the
    16-byte [stub] member only makes the union at least 16 bytes large.
    The payload that [malloc] returns lies 24 bytes past its header.  On
    ILP32 the header is 16 bytes. *)
Theorem header_size_not_16_aligned :
  sizeof_header LP64 = 24 ∧
  sizeof_header LP64 mod 16 = 8 ∧
  sizeof_header ILP32 = 16 ∧
  ∃ st', malloc LP64 1 st_fresh 1 = Ret (brk st_fresh + 24, st') ∧
         head st' = brk st_fresh.
Proof.
  repeat split.
  eexists. split; [vm_compute; reflexivity | reflexivity].
Qed.

(** The invariant holds before the first call and in the example state of
    four blocks. *)
Lemma inv_fresh (a : abi) : inv a st_fresh [] = true.
Proof. reflexivity. Qed.

Lemma inv_blocks : inv LP64 st_blocks [4096; 4130; 4174; 4228] = true.
Proof. reflexivity. Qed.

Lemma calls_preserve_invariant_example :
  ∃ st' l',
    run LP64 6 st_blocks (Realloc 4120 40) = Ret st' ∧
    inv LP64 st' l' = true ∧ list_shape st' l'.
Proof.
  apply (calls_preserve_invariant LP64 6 st_blocks [4096; 4130; 4174; 4228]
           (Realloc 4120 40) inv_blocks).
  - split.
    + right. vm_compute. repeat constructor.
    + right. split; [lia | vm_compute; reflexivity].
  - simpl. lia.
Defined.

(** After the overflowing requests a search that finds no fit never
    returns. *)
Lemma malloc_diverges_in_cycle (fuel : nat) :
  malloc LP64 fuel st_cyclic 1 = Diverge.
Proof.
  assert (Hloop : ∀ n, check_for_block_loop n (heap st_cyclic) 1 4121 = Diverge).
  { induction n as [|n IH]; [reflexivity|].
    cbn [check_for_block_loop]. exact IH. }
  unfold malloc, check_for_block. change (1 =? 0) with false. cbv iota.
  destruct fuel as [|n]; [reflexivity|].
  cbn [check_for_block_loop]. change (head st_cyclic =? NULL) with false.
  cbv iota. change (load (heap st_cyclic) (head st_cyclic))
    with (Ret (metadata.Build 1 false 4121)).
  cbn [mbind outcome_bind metadata.is_free metadata.next andb].
  now rewrite (Hloop n).
Qed.

(** C9. A request so large that [sizeof(header_t) + size] wraps to [0]
    makes [sbrk] hand back the break without moving it.  Two such requests
    in a row carve two headers at the same address: the second call links
    [tail] to itself.  All three calls complete, and in the state they
    leave the list from [head] is 4096, 4121, 4121, ...: [tail] has a
    non-empty link, the addresses do not increase, and no list of blocks
    gives the state the shape that the specification states. *)
Theorem malloc_overflow_links_tail_to_itself :
  malloc LP64 3 st_fresh 1 = Ret (4120, st_one) ∧
  malloc LP64 3 st_one (2 ^ 64 - 24) = Ret (4145, st_over) ∧
  malloc LP64 3 st_over (2 ^ 64 - 24) = Ret (4145, st_cyclic) ∧
  wrap LP64 (sizeof_header LP64 + (2 ^ 64 - 24)) = 0 ∧
  tail st_cyclic = 4121 ∧
  metadata.next <$> heap st_cyclic !! tail st_cyclic = Some 4121 ∧
  ∀ l, ¬ list_shape st_cyclic l.
Proof.
  repeat split; try (vm_compute; reflexivity).
  intros l (_ & _ & Htl & _ & _ & Hlast).
  assert (Hne : l ≠ []) by (intros E; apply Htl in E; discriminate).
  specialize (Hlast Hne). vm_compute in Hlast. discriminate.
Qed.

(** ** Payload bytes *)

Lemma memset_loop_lookup (c : byte) (n : nat) :
  ∀ (m : gmap Z byte) (p q : Z),
    memset_loop m p c n !! q =
      if decide (p <= q < p + Z.of_nat n) then Some c else m !! q.
Proof.
  induction n as [|n IH]; intros m p q; cbn [memset_loop].
  - destruct (decide _); [lia | reflexivity].
  - rewrite IH, lookup_insert.
    repeat destruct (decide _); try reflexivity; lia.
Qed.

Lemma memcpy_loop_lookup (n : nat) :
  ∀ (m : gmap Z byte) (dst src q : Z),
    dst + Z.of_nat n <= src ∨ src + Z.of_nat n <= dst →
    memcpy_loop m dst src n !! q =
      if decide (dst <= q < dst + Z.of_nat n) then m !! (src + (q - dst))
      else m !! q.
Proof.
  induction n as [|n IH]; intros m dst src q Hsep; cbn [memcpy_loop].
  - destruct (decide _); [lia | reflexivity].
  - assert (Hone : ∀ x, (match m !! src with
                         | Some b => <[dst := b]> m
                         | None => delete dst m
                         end) !! x = if decide (x = dst) then m !! src else m !! x).
    { intros x. destruct (m !! src) as [b|] eqn:E.
      - rewrite lookup_insert. repeat destruct (decide _); congruence.
      - rewrite lookup_delete. repeat destruct (decide _); congruence. }
    rewrite IH by lia. rewrite !Hone.
    repeat destruct (decide _); try reflexivity; try lia; f_equal; lia.
Qed.

Section Effects.
Variable a : abi.

Lemma sbrk_fields (st : state) (x : Z) :
  let st' := snd (sbrk_result st (sbrk st x)) in
  head st' = head st ∧ tail st' = tail st ∧ heap st' = heap st ∧
  mem st' = mem st ∧ brk_max st' = brk_max st.
Proof.
  unfold sbrk.
  repeat match goal with |- context [if ?c then _ else _] => destruct c end;
    cbn; auto.
Qed.

(** [malloc] never writes a payload byte. *)
Lemma malloc_mem (fuel : nat) (st st' : state) (s p : Z) :
  malloc a fuel st s = Ret (p, st') → mem st' = mem st.
Proof.
  unfold malloc.
  destruct (s =? 0); [now intros [= <- <-]|].
  destruct (check_for_block fuel st s) as [hd| |]; cbn [mbind outcome_bind];
    [|discriminate..].
  destruct (negb (hd =? NULL)).
  - destruct (load (heap st) hd); cbn [mbind outcome_bind]; [|discriminate..].
    now intros [= <- <-].
  - pose proof (sbrk_fields st (to_intptr a (wrap a (sizeof_header a + s))))
      as (_ & _ & _ & Hm & _).
    destruct (sbrk_result st _) as [block st1]. cbn [snd] in Hm.
    destruct (block =? -1); [now intros [= <- <-]|].
    match goal with |- context [mbind _ ?m] => destruct m end;
      cbn [mbind outcome_bind]; [|discriminate..].
    now intros [= <- <-].
Qed.

(** [free] never writes a payload byte. *)
Lemma free_mem (fuel : nat) (st st' : state) (p : Z) :
  free a fuel st p = Ret st' → mem st' = mem st.
Proof.
  unfold free.
  destruct (p =? NULL); [now intros [= <-]|].
  cbn [sbrk Z.eqb sbrk_result].
  destruct (load (heap st) (p - sizeof_header a)) as [h| |];
    cbn [mbind outcome_bind]; [|discriminate..].
  destruct (p + metadata.size h =? brk st); [|now intros [= <-]].
  match goal with |- context [mbind _ ?m] => destruct m as [st1| |] eqn:E end;
    cbn [mbind outcome_bind]; [|discriminate..].
  assert (Hm1 : mem st1 = mem st).
  { revert E. destruct (head st =? tail st).
    - now intros [= <-].
    - destruct (free_loop fuel (heap st) (tail st) (head st)) as [[hs tl]| |];
        cbn [mbind outcome_bind]; [|discriminate..].
      now intros [= <-]. }
  destruct (load (heap st1) (p - sizeof_header a)) as [h1| |];
    cbn [mbind outcome_bind]; [|discriminate..].
  pose proof (sbrk_fields st1
    (to_intptr a (wrap a (0 - sizeof_header a - metadata.size h1)))) as Hf.
  cbv zeta in Hf. destruct Hf as (_ & _ & _ & Hm & _). revert Hm.
  generalize (snd (sbrk_result st1
    (sbrk st1 (to_intptr a (wrap a (0 - sizeof_header a - metadata.size h1)))))).
  intros r Hm [= <-]. congruence.
Qed.

End Effects.

(** ** What each path of [malloc] and [free] does to a well-formed arena *)

Lemma unlinked_fields (b t : Z) (hs : gmap Z metadata.t) (st1 : state) :
  let st2 := set_brk b (set_tail t (set_heap hs st1)) in
  head st2 = head st1 ∧ tail st2 = t ∧ heap st2 = hs ∧
  mem st2 = mem st1 ∧ brk st2 = b.
Proof. destruct st1. repeat split. Qed.

Section Paths.
Variable a : abi.

(** Distinct blocks of a tiling do not overlap. *)
Lemma tiled_separated (hs : gmap Z metadata.t) (top : Z) (l : list Z) :
  tiled a hs l top = true →
  ∀ x y hx, x ∈ l → y ∈ l → x < y → hs !! x = Some hx →
            x + sizeof_header a + metadata.size hx <= y.
Proof.
  induction l as [|z l IH]; intros Ht x y hx Hx Hy Hlt Hhx.
  - now apply elem_of_nil in Hx.
  - pose proof (tiled_cons _ _ _ _ _ Ht) as (hz & Hhz & _ & _ & _ & Hend & Ht').
    pose proof (tiled_bounds _ _ _ _ Ht') as Hb.
    apply elem_of_cons in Hx as [->|Hx]; apply elem_of_cons in Hy as [->|Hy].
    + lia.
    + rewrite Hhz in Hhx. injection Hhx as <-. apply Hb in Hy. lia.
    + apply Hb in Hx. pose proof (sizeof_header_pos a). 
      assert (0 < metadata.size hz) by
        (apply tiled_cons in Ht as (h' & E & _ & ? & _); congruence).
      lia.
    + now apply (IH Ht' x y hx).
Qed.

Lemma inv_tail_in (st : state) (l : list Z) :
  inv a st l = true → tail st ≠ NULL →
  tail st ∈ l ∧ tail st < brk st ∧
  ∃ l0 ht, l = l0 ++ [tail st] ∧ heap st !! tail st = Some ht ∧
           metadata.next ht = NULL.
Proof.
  intros Hinv Hne.
  pose proof (inv_elim _ _ _ Hinv) as (Hseg & Htail & Htiled & Hbrk).
  destruct l as [|t l0 _] using rev_ind; [simpl in Htail; contradiction|].
  rewrite last_last in Htail. subst t.
  assert (Hin : tail st ∈ l0 ++ [tail st])
    by (apply elem_of_app; right; apply elem_of_cons; auto).
  pose proof (tiled_bounds _ _ _ _ Htiled _ Hin).
  destruct (lseg_last _ _ _ _ Hseg) as (_ & _ & ht & Hht & Hnext).
  repeat split; [assumption | lia |]. now exists l0, ht.
Qed.

(** The growth path of [malloc] in a well-formed arena. *)
Lemma malloc_carve_eq (fuel : nat) (st : state) (s : Z) (l : list Z) :
  inv a st l = true →
  0 < s →
  sizeof_header a + s < 2 ^ (bits a - 1) →
  no_fit (heap st) s l = true →
  brk st + (sizeof_header a + s) <= brk_max st →
  (length l < fuel)%nat →
  malloc a fuel st s = Ret (brk st + sizeof_header a, carved a st s).
Proof.
  intros Hinv Hs Hfoot Hno Hroom Hfuel.
  pose proof (inv_elim _ _ _ Hinv) as (Hseg & Htail & Htiled & Hbrk).
  rewrite (malloc_grow a _ _ _ _ Hs Hfoot Hseg Hno Hbrk Hroom Hfuel).
  cbv zeta. unfold carved.
  destruct (Z.eqb_spec (tail st) NULL) as [E|E]; cbn [negb mbind outcome_bind].
  - reflexivity.
  - destruct (inv_tail_in _ _ Hinv E) as (_ & Hlt & _ & ht & _ & Hht & _).
    unfold load. rewrite lookup_insert_ne, Hht by lia. reflexivity.
Qed.

(** The arena after a growth is well formed, with the new block last. *)
Lemma carved_inv (st : state) (s : Z) (l : list Z) :
  inv a st l = true →
  0 < s →
  sizeof_header a + s < 2 ^ (bits a - 1) →
  inv a (carved a st s) (l ++ [brk st]) = true.
Proof.
  intros Hinv Hs Hfoot.
  pose proof (sizeof_header_pos a) as Hpos.
  pose proof (inv_elim _ _ _ Hinv) as (Hseg & Htail & Htiled & Hbrk).
  unfold carved.
  destruct l as [|t l0 _] using rev_ind.
  - simpl in Hseg, Htail. bools. rewrite Htail, Hseg.
    change (NULL =? NULL) with true. cbv iota.
    apply inv_intro; cbn [heap head tail brk List.last app].
    + apply lseg_singleton with (ht := metadata.Build s false NULL);
        [unfold NULL; lia | apply lookup_insert_eq | reflexivity].
    + reflexivity.
    + cbn [tiled hd]. rewrite lookup_insert_eq. cbn [metadata.size].
      repeat (apply andb_true_iff; split); try reflexivity;
        [apply Z.ltb_lt; lia.. | apply Z.eqb_eq; lia].
    + lia.
  - rewrite last_last in Htail.
    pose proof (lseg_last _ _ _ _ Hseg) as (Hpre & Ht & ht & Hht & Hnext).
    pose proof (lseg_nonempty_head _ _ _ _ Hseg ltac:(destruct l0; discriminate))
      as (Hhead & _).
    pose proof (tiled_bounds _ _ _ _ Htiled) as Hb.
    assert (Htb : t < brk st)
      by (apply Hb, elem_of_app; right; apply elem_of_cons; auto).
    rewrite tiled_app in Htiled. cbn [hd] in Htiled.
    apply andb_true_iff in Htiled as (Ht0 & Ht1).
    pose proof (tiled_bounds _ _ _ _ Ht0) as Hb0.
    rewrite Htail, (eqb_false _ _ Ht), (eqb_false _ _ Hhead), Hht.
    apply inv_intro; cbn [heap head tail brk].
    + rewrite <- app_assoc. apply lseg_app_intro with (m := t).
      * rewrite <- Hpre. apply lseg_ext. intros x Hx.
        pose proof (Hb0 x Hx).
        rewrite !lookup_insert_ne by lia. reflexivity.
      * cbn [app lseg]. rewrite lookup_insert_eq.
        cbn [metadata.next metadata.set_next].
        rewrite lookup_insert_ne, lookup_insert_eq by lia.
        cbn [metadata.next].
        rewrite !Z.eqb_refl, (eqb_false _ _ Ht), (eqb_false (brk st) NULL)
          by (unfold NULL; lia).
        reflexivity.
    + now rewrite last_last.
    + rewrite tiled_app. cbn [hd]. apply andb_true_iff. split.
      * rewrite tiled_app. cbn [hd]. apply andb_true_iff. split.
        -- rewrite <- Ht0. apply tiled_ext. intros x Hx.
           pose proof (Hb0 x Hx).
           rewrite !lookup_insert_ne by lia. reflexivity.
        -- rewrite <- Ht1. apply tiled_ext. intros x Hx.
           apply elem_of_cons in Hx as [->|Hx]; [|now apply elem_of_nil in Hx].
           rewrite lookup_insert_eq, Hht. reflexivity.
      * cbn [tiled hd]. rewrite lookup_insert_ne, lookup_insert_eq by lia.
        cbn [metadata.size].
        repeat (apply andb_true_iff; split); try reflexivity;
          [apply Z.ltb_lt; lia.. | apply Z.eqb_eq; lia].
    + lia.
Qed.

(** The header of the carved block. *)
Lemma carved_lookup_new (st : state) (s : Z) (l : list Z) :
  inv a st l = true →
  heap (carved a st s) !! brk st = Some (metadata.Build s false NULL).
Proof.
  intros Hinv. unfold carved. cbn [heap].
  destruct (Z.eqb_spec (tail st) NULL) as [E|E]; [apply lookup_insert_eq|].
  destruct (inv_tail_in _ _ Hinv E) as (_ & Hlt & _ & ht & _ & Hht & _).
  rewrite Hht, lookup_insert_ne by lia. apply lookup_insert_eq.
Qed.

(** A growth keeps the size and the flag of every other header. *)
Lemma carved_lookup_old (st : state) (s x : Z) (h : metadata.t) :
  x ≠ brk st →
  heap st !! x = Some h →
  ∃ h', heap (carved a st s) !! x = Some h' ∧
        metadata.size h' = metadata.size h ∧
        metadata.is_free h' = metadata.is_free h.
Proof.
  intros Hx Hh. unfold carved. cbn [heap].
  destruct (tail st =? NULL).
  - rewrite lookup_insert_ne by congruence. eauto.
  - destruct (heap st !! tail st) as [t|] eqn:Et.
    + rewrite lookup_insert. destruct (decide (tail st = x)) as [E|_].
      * rewrite E, Hh in Et. injection Et as <-. eauto.
      * rewrite lookup_insert_ne by congruence. eauto.
    + rewrite lookup_insert_ne by congruence. eauto.
Qed.

(** The three ways a request of [s > 0] bytes ends in a well-formed arena:
    reuse of the first block that fits, growth, or refusal. *)
Lemma malloc_cases (fuel : nat) (st : state) (s : Z) (l : list Z) :
  inv a st l = true →
  0 < s →
  sizeof_header a + s < 2 ^ (bits a - 1) →
  (length l < fuel)%nat →
  (∃ pre b post hb,
      l = pre ++ b :: post ∧ no_fit (heap st) s pre = true ∧
      heap st !! b = Some hb ∧ metadata.is_free hb = true ∧
      s <= metadata.size hb ∧
      malloc a fuel st s =
        Ret (b + sizeof_header a,
             set_heap (<[b := metadata.set_is_free false hb]> (heap st)) st))
  ∨ (no_fit (heap st) s l = true ∧
     brk st + (sizeof_header a + s) <= brk_max st ∧
     malloc a fuel st s = Ret (brk st + sizeof_header a, carved a st s))
  ∨ (no_fit (heap st) s l = true ∧
     brk_max st < brk st + (sizeof_header a + s) ∧
     malloc a fuel st s = Ret (NULL, st)).
Proof.
  intros Hinv Hs Hfoot Hfuel.
  pose proof (sizeof_header_pos a) as Hpos.
  pose proof (inv_elim _ _ _ Hinv) as (Hseg & Htail & Htiled & Hbrk).
  destruct (first_fit_split (heap st) s l) as [Hno|(pre & b & post & -> & Hno & Hb)].
  - right.
    destruct (Z.leb_spec (brk st + (sizeof_header a + s)) (brk_max st))
      as [Hroom|Hfull].
    + left. repeat split; [assumption..|]. now apply malloc_carve_eq with (l := l).
    + right. repeat split; [assumption..|].
      apply (malloc_refused a fuel st s Hs);
        [now apply check_for_block_miss with (l := l)|].
      rewrite (to_intptr_request _ _ Hs Hfoot). unfold sbrk.
      rewrite (eqb_false (sizeof_header a + s) 0) by lia.
      destruct (Z.ltb_spec (sizeof_header a + s) 0) as [|_]; [lia|].
      destruct (Z.leb_spec (brk st + (sizeof_header a + s)) (brk_max st)); [lia|].
      reflexivity.
  - left.
    apply lseg_app_elim in Hseg as (m & Hpre & Hrest).
    apply lseg_cons in Hrest as (-> & Hbn & hb & Hhb & Hrest).
    unfold fits_at in Hb. rewrite Hhb in Hb. bools.
    assert (Hfuel' : (length pre < fuel)%nat)
      by (rewrite length_app in Hfuel; simpl in Hfuel; lia).
    exists pre, b, post, hb. repeat split; try assumption.
    apply (malloc_reuse a fuel st s b hb); auto.
    now apply check_for_block_hit with (pre := pre) (hb := hb).
Qed.

(** Clearing or setting the flag of a block keeps the arena well formed. *)
Lemma inv_set_is_free (st : state) (l : list Z) (b : Z) (hb : metadata.t)
      (f : bool) :
  inv a st l = true →
  heap st !! b = Some hb →
  inv a (set_heap (<[b := metadata.set_is_free f hb]> (heap st)) st) l = true.
Proof.
  intros Hinv Hhb.
  pose proof (inv_elim _ _ _ Hinv) as (Hseg & Htail & Htiled & Hbrk).
  apply inv_intro; cbn [heap head tail brk set_heap]; try assumption.
  - rewrite <- Hseg. apply lseg_ext. intros x _.
    now apply insert_same_next with (hb := hb).
  - rewrite <- Htiled. apply tiled_ext. intros x _.
    now apply insert_same_size with (hb := hb).
Qed.

(** The arena without its only block. *)
Lemma inv_emptied (st : state) (x : Z) (h : metadata.t) :
  inv a st [x] = true →
  heap st !! x = Some h →
  inv a (set_brk (brk st - (sizeof_header a + metadata.size h))
           (set_tail NULL (set_head NULL st))) [] = true.
Proof.
  intros Hinv Hh.
  pose proof (inv_elim _ _ _ Hinv) as (_ & _ & Htiled & _).
  apply tiled_cons in Htiled as (h' & Hh' & Hx & _ & _ & Hend & _).
  rewrite Hh in Hh'. injection Hh' as <-. cbn [hd] in Hend.
  apply inv_intro; cbn [heap head tail brk set_brk set_tail set_head];
    try reflexivity. lia.
Qed.

(** The arena without its last block, unlinked at its predecessor. *)
Lemma inv_unlinked (st : state) (l1 : list Z) (pred x : Z) (hp h : metadata.t) :
  inv a st ((l1 ++ [pred]) ++ [x]) = true →
  heap st !! pred = Some hp →
  heap st !! x = Some h →
  inv a (set_brk (brk st - (sizeof_header a + metadata.size h))
           (set_tail pred
              (set_heap (<[pred := metadata.set_next NULL hp]> (heap st)) st)))
      (l1 ++ [pred]) = true.
Proof.
  intros Hinv Hhp Hh.
  pose proof (inv_elim _ _ _ Hinv) as (Hseg & Htail & Htiled & Hbrk).
  pose proof (lseg_last _ _ _ _ Hseg) as (Hpre & _).
  rewrite tiled_app in Htiled. cbn [hd] in Htiled.
  apply andb_true_iff in Htiled as (Ht0 & Htx).
  apply tiled_cons in Htx as (h' & Hh' & Hx & _ & _ & Hend & _).
  rewrite Hh in Hh'. injection Hh' as <-. cbn [hd] in Hend.
  apply lseg_app_elim in Hpre as (m & Hl1 & Hlast).
  apply lseg_cons in Hlast as (-> & Hpn & _).
  pose proof Ht0 as Ht0'. rewrite tiled_app in Ht0'. cbn [hd] in Ht0'.
  apply andb_true_iff in Ht0' as (Ht1 & _).
  pose proof (tiled_bounds _ _ _ _ Ht1) as Hb1.
  apply inv_intro; cbn [heap head tail brk set_brk set_tail set_heap].
  - apply lseg_app_intro with (m := pred).
    + rewrite <- Hl1. apply lseg_ext. intros y Hy. apply Hb1 in Hy.
      rewrite lookup_insert_ne by lia. reflexivity.
    + apply lseg_singleton with (ht := metadata.set_next NULL hp);
        [assumption | apply lookup_insert_eq | reflexivity].
  - now rewrite last_last.
  - replace (brk st - (sizeof_header a + metadata.size h)) with x by lia.
    rewrite <- Ht0. apply tiled_ext. intros y _.
    now apply insert_same_size with (hb := hp).
  - lia.
Qed.

(** The three ways a release of the payload [p] of a listed block ends in a
    well-formed arena: the block is marked free, or it is the only block,
    or it is the last block and is unlinked at its predecessor. *)
Lemma free_cases (fuel : nat) (st : state) (p : Z) (l : list Z) :
  inv a st l = true →
  p - sizeof_header a ∈ l →
  (length l < fuel)%nat →
  ∃ h, heap st !! (p - sizeof_header a) = Some h ∧
    ((p + metadata.size h ≠ brk st ∧
      free a fuel st p =
        Ret (set_heap (<[p - sizeof_header a := metadata.set_is_free true h]>
                         (heap st)) st))
     ∨ (p + metadata.size h = brk st ∧ l = [p - sizeof_header a] ∧
        free a fuel st p =
          Ret (set_brk (brk st - (sizeof_header a + metadata.size h))
                 (set_tail NULL (set_head NULL st))))
     ∨ (p + metadata.size h = brk st ∧
        ∃ l1 pred hp,
          l = (l1 ++ [pred]) ++ [p - sizeof_header a] ∧
          heap st !! pred = Some hp ∧
          free a fuel st p =
            Ret (set_brk (brk st - (sizeof_header a + metadata.size h))
                   (set_tail pred
                      (set_heap (<[pred := metadata.set_next NULL hp]> (heap st))
                         st))))).
Proof.
  intros Hinv Hin Hfuel.
  pose proof (sizeof_header_pos a) as Hpos.
  pose proof (inv_elim _ _ _ Hinv) as (Hseg & Htail & Htiled & Hbrk).
  destruct (tiled_lookup _ _ _ _ _ Htiled Hin) as (h & Hh & Hx & Hsz & Hfoot).
  assert (Hp : p ≠ NULL) by (unfold NULL; lia).
  assert (Hsz0 : 0 <= metadata.size h) by lia.
  exists h. split; [assumption|].
  destruct (Z.eq_dec (p + metadata.size h) (brk st)) as [Hend|Hend].
  - right.
    destruct (tiled_last _ _ _ _ h l Htiled Hin Hh ltac:(lia)) as (l0 & ->).
    rewrite last_last in Htail.
    destruct l0 as [|pred l1 _] using rev_ind.
    + left. apply lseg_cons in Hseg as (Hhead & _).
      repeat split; [assumption|]. apply free_shrink_single; congruence.
    + right. split; [assumption|].
      pose proof (lseg_last _ _ _ _ Hseg) as (Hpre & _).
      rewrite tiled_app in Htiled. cbn [hd] in Htiled.
      apply andb_true_iff in Htiled as (Ht0 & _).
      pose proof (tiled_bounds _ _ _ _ Ht0) as Hb0.
      pose proof (lseg_nonempty_head _ _ _ _ Hpre ltac:(destruct l1; discriminate))
        as (_ & Hhead).
      apply Hb0 in Hhead.
      assert (Hpin : pred ∈ l1 ++ [pred])
        by (apply elem_of_app; right; apply elem_of_cons; auto).
      destruct (tiled_lookup _ _ _ _ _ Ht0 Hpin) as (hp & Hhp & _).
      exists l1, pred, hp. repeat split; [assumption|].
      apply free_shrink_unlink with (pre := l1); try assumption.
      * lia.
      * now rewrite Htail.
      * rewrite Htail. apply absent_intro. intros y Hy. apply Hb0 in Hy. lia.
      * rewrite !length_app in Hfuel. simpl in Hfuel. lia.
  - left. split; [assumption|]. now apply free_mark.
Qed.

End Paths.

(** ** Further properties of the allocator *)

Section Properties.
Variable a : abi.

(** X2. In a well-formed arena a request of [s > 0] bytes always returns,
    and it returns [NULL] exactly when no block of the list is free with
    capacity at least [s] and the break cannot rise by
    [sizeof_header + s]; the state is then unchanged. *)
Theorem malloc_fails_iff (fuel : nat) (st : state) (s : Z) (l : list Z) :
  inv a st l = true →
  0 < s →
  sizeof_header a + s < 2 ^ (bits a - 1) →
  (length l < fuel)%nat →
  ∃ p st', malloc a fuel st s = Ret (p, st') ∧
    (p = NULL ↔
       no_fit (heap st) s l = true ∧
       brk_max st < brk st + (sizeof_header a + s)) ∧
    (p = NULL → st' = st).
Proof.
  intros Hinv Hs Hfoot Hfuel.
  pose proof (sizeof_header_pos a) as Hpos.
  pose proof (inv_elim _ _ _ Hinv) as (_ & _ & Htiled & Hbrk).
  destruct (malloc_cases a fuel st s l Hinv Hs Hfoot Hfuel)
    as [(pre & b & post & hb & -> & Hno & Hhb & Hfree & Hcap & Hm)
       |[(Hno & Hroom & Hm)|(Hno & Hfull & Hm)]].
  - assert (Hb : 0 < b).
    { destruct (tiled_lookup _ _ _ _ b Htiled) as (_ & _ & ? & _); [|assumption].
      apply elem_of_app. right. apply elem_of_cons. auto. }
    eexists _, _. split; [exact Hm|]. split; [split|]; unfold NULL.
    + lia.
    + intros (Hnone & _). unfold no_fit in Hnone.
      rewrite forallb_app in Hnone. cbn [forallb] in Hnone. bools.
      unfold fits_at in *. rewrite Hhb, Hfree in *.
      apply Z.leb_le in Hcap. rewrite Hcap in *. discriminate.
    + lia.
  - eexists _, _. split; [exact Hm|]. unfold NULL. repeat split; lia.
  - eexists _, _. split; [exact Hm|]. repeat split; auto.
Qed.

(** X3. In a well-formed arena, when no block fits a request of [s > 0]
    bytes and the break may rise, [malloc] carves exactly one block at the
    old break: it returns the address one header past the old break, the
    new header records [s] bytes, in use, with an empty link, and becomes
    [tail]; the break rises by exactly [sizeof_header + s]; [head] changes
    only if the list was empty; every older block keeps its size and its
    flag; the arena is well formed with the new block last. *)
Theorem malloc_grows_by_one_block (fuel : nat) (st : state) (s : Z) (l : list Z) :
  inv a st l = true →
  0 < s →
  sizeof_header a + s < 2 ^ (bits a - 1) →
  no_fit (heap st) s l = true →
  brk st + (sizeof_header a + s) <= brk_max st →
  (length l < fuel)%nat →
  ∃ st', malloc a fuel st s = Ret (brk st + sizeof_header a, st') ∧
    inv a st' (l ++ [brk st]) = true ∧
    heap st' !! brk st = Some (metadata.Build s false NULL) ∧
    tail st' = brk st ∧
    brk st' = brk st + (sizeof_header a + s) ∧
    (l = [] → head st' = brk st) ∧
    (l ≠ [] → head st' = head st) ∧
    (∀ x h, x ∈ l → heap st !! x = Some h →
       ∃ h', heap st' !! x = Some h' ∧
             metadata.size h' = metadata.size h ∧
             metadata.is_free h' = metadata.is_free h).
Proof.
  intros Hinv Hs Hfoot Hno Hroom Hfuel.
  pose proof (inv_elim _ _ _ Hinv) as (Hseg & _ & Htiled & _).
  exists (carved a st s).
  split; [now apply malloc_carve_eq with (l := l)|].
  split; [now apply carved_inv|].
  split; [now apply carved_lookup_new with (l := l)|].
  split; [reflexivity|]. split; [reflexivity|].
  split; [|split].
  - intros ->. simpl in Hseg. bools. unfold carved. cbn [head].
    now rewrite Hseg.
  - intros Hne. destruct (lseg_nonempty_head _ _ _ _ Hseg Hne) as (Hhead & _).
    unfold carved. cbn [head]. now rewrite (eqb_false _ _ Hhead).
  - intros x h Hx Hh. apply carved_lookup_old; [|assumption].
    pose proof (tiled_bounds _ _ _ _ Htiled x Hx). lia.
Qed.

(** X4. In a well-formed arena [malloc] never hands out a block that is in
    use: the pointer it returns is not the payload address of any block
    whose flag says in use, and every such block is still in use with the
    same capacity afterwards. *)
Theorem malloc_keeps_live_blocks (fuel : nat) (st st' : state) (s p : Z)
        (l : list Z) :
  inv a st l = true →
  size_ok a s →
  (length l < fuel)%nat →
  malloc a fuel st s = Ret (p, st') →
  ∀ x h, x ∈ l → heap st !! x = Some h → metadata.is_free h = false →
    p ≠ x + sizeof_header a ∧
    ∃ h', heap st' !! x = Some h' ∧
          metadata.size h' = metadata.size h ∧
          metadata.is_free h' = false.
Proof.
  intros Hinv Hok Hfuel Hm x h Hx Hh Hlive.
  pose proof (sizeof_header_pos a) as Hpos.
  pose proof (inv_elim _ _ _ Hinv) as (_ & _ & Htiled & Hbrk).
  pose proof (tiled_bounds _ _ _ _ Htiled x Hx) as Hxb.
  destruct (tiled_lookup _ _ _ _ x Htiled Hx) as (_ & _ & Hxpos & _).
  destruct Hok as [->|[Hs Hfoot]].
  { cbn in Hm. injection Hm as <- <-. unfold NULL. split; [lia|eauto]. }
  destruct (malloc_cases a fuel st s l Hinv Hs Hfoot Hfuel)
    as [(pre & b & post & hb & -> & Hno & Hhb & Hfree & Hcap & Hm')
       |[(Hno & Hroom & Hm')|(Hno & Hfull & Hm')]];
    rewrite Hm' in Hm; injection Hm as <- <-.
  - assert (Hxb' : x ≠ b) by (intros ->; congruence).
    split; [lia|]. cbn [heap set_heap].
    rewrite lookup_insert_ne by congruence. eauto.
  - split; [lia|].
    destruct (carved_lookup_old a st s x h ltac:(lia) Hh) as (h' & ? & ? & ?).
    exists h'. repeat split; congruence.
  - unfold NULL. split; [lia|eauto].
Qed.

Lemma no_fit_ext (hs1 hs2 : gmap Z metadata.t) (s : Z) (l : list Z) :
  (∀ x, x ∈ l → hs1 !! x = hs2 !! x) →
  no_fit hs1 s l = no_fit hs2 s l.
Proof.
  induction l as [|y l IH]; intros Hext; [reflexivity|].
  unfold no_fit in *. cbn [forallb]. unfold fits_at at 1 3.
  rewrite (Hext y) by (apply elem_of_cons; auto).
  rewrite IH by (intros x Hx; apply Hext, elem_of_cons; auto).
  reflexivity.
Qed.

Lemma set_is_free_back (h : metadata.t) :
  metadata.is_free h = false →
  metadata.set_is_free false (metadata.set_is_free true h) = h.
Proof. destruct h. cbn. now intros ->. Qed.

(** X5. In a well-formed arena, releasing a block in use that is not the
    last one marks it free; a request that fits it, and fits no earlier
    block, is then answered with the same pointer, and the two calls
    together leave the state exactly as it was before the release. *)
Theorem free_then_malloc_reuses (fuel : nat) (st : state) (p s : Z)
        (pre post : list Z) (h : metadata.t) :
  inv a st (pre ++ (p - sizeof_header a) :: post) = true →
  post ≠ [] →
  heap st !! (p - sizeof_header a) = Some h →
  metadata.is_free h = false →
  no_fit (heap st) s pre = true →
  0 < s <= metadata.size h →
  (length (pre ++ (p - sizeof_header a)%Z :: post) < fuel)%nat →
  ∃ st1, free a fuel st p = Ret st1 ∧
         metadata.is_free <$> heap st1 !! (p - sizeof_header a) = Some true ∧
         malloc a fuel st1 s = Ret (p, st).
Proof.
  intros Hinv Hpost Hh Hlive Hno Hs Hfuel.
  pose proof (sizeof_header_pos a) as Hpos.
  pose proof (inv_elim _ _ _ Hinv) as (Hseg & _ & Htiled & _).
  set (x := p - sizeof_header a) in *.
  rewrite tiled_app in Htiled. cbn [hd] in Htiled.
  apply andb_true_iff in Htiled as (Hpre & Hrest).
  pose proof (tiled_bounds _ _ _ _ Hpre) as Hbpre.
  pose proof (tiled_cons _ _ _ _ _ Hrest) as (h' & Hh' & Hx & _ & _ & Hend & Hpost').
  rewrite Hh in Hh'. injection Hh' as <-.
  destruct post as [|y post']; [contradiction|]. cbn [hd] in Hend.
  pose proof (tiled_bounds _ _ _ _ Hpost' y ltac:(apply elem_of_cons; auto)) as Hy.
  assert (Hp : p ≠ NULL) by (unfold NULL; lia).
  set (st1 := set_heap (<[x := metadata.set_is_free true h]> (heap st)) st).
  exists st1. split; [apply free_mark; [assumption.. | lia]|].
  split; [cbn [heap set_heap st1]; now rewrite lookup_insert_eq|].
  apply lseg_app_elim in Hseg as (m & Hlpre & Hlrest).
  apply lseg_cons in Hlrest as (-> & Hxn & _).
  assert (Hsearch : check_for_block fuel st1 s = Ret x).
  { apply check_for_block_hit
      with (pre := pre) (hb := metadata.set_is_free true h);
      cbn [heap head set_heap st1].
    - rewrite <- Hlpre. apply lseg_ext. intros z _.
      now apply insert_same_next with (hb := h).
    - rewrite <- Hno. apply no_fit_ext. intros z Hz. apply Hbpre in Hz.
      apply lookup_insert_ne. lia.
    - assumption.
    - apply lookup_insert_eq.
    - reflexivity.
    - cbn. lia.
    - rewrite length_app in Hfuel. simpl in Hfuel. lia. }
  rewrite (malloc_reuse a fuel st1 s x (metadata.set_is_free true h)
             ltac:(lia) Hsearch Hxn ltac:(apply lookup_insert_eq)).
  f_equal. f_equal; [unfold x; lia|].
  unfold st1, set_heap. cbn [heap head tail mem brk brk_max].
  rewrite insert_insert_eq.
  rewrite (set_is_free_back h Hlive), insert_id by assumption.
  now destruct st.
Qed.

(** X6. In a well-formed arena, a block that [malloc] has just carved at
    the break and that is released at once is given back to the
    environment: [head], [tail], the break and the payload bytes are those
    before the two calls, every header below the old break is as it was,
    and the list of blocks is the old one. *)
Theorem malloc_then_free_restores (fuel : nat) (st : state) (s : Z) (l : list Z) :
  inv a st l = true →
  0 < s →
  sizeof_header a + s < 2 ^ (bits a - 1) →
  no_fit (heap st) s l = true →
  brk st + (sizeof_header a + s) <= brk_max st →
  (length l + 1 < fuel)%nat →
  ∃ p st1 st2,
    malloc a fuel st s = Ret (p, st1) ∧ p ≠ NULL ∧
    free a fuel st1 p = Ret st2 ∧
    head st2 = head st ∧ tail st2 = tail st ∧
    brk st2 = brk st ∧ mem st2 = mem st ∧
    (∀ x, x ≠ brk st → heap st2 !! x = heap st !! x) ∧
    inv a st2 l = true.
Proof.
  intros Hinv Hs Hfoot Hno Hroom Hfuel.
  pose proof (sizeof_header_pos a) as Hpos.
  pose proof (inv_elim _ _ _ Hinv) as (Hseg & Htail & Htiled & Hbrk).
  pose proof (carved_inv a st s l Hinv Hs Hfoot) as Hinv1.
  pose proof (carved_lookup_new a st s l Hinv) as Hnew.
  exists (brk st + sizeof_header a), (carved a st s).
  assert (Hp : brk st + sizeof_header a ≠ NULL) by (unfold NULL; lia).
  assert (Hhdr : brk st + sizeof_header a - sizeof_header a = brk st) by lia.
  destruct (free_cases a fuel (carved a st s) (brk st + sizeof_header a)
              (l ++ [brk st]) Hinv1)
    as (h1 & Hh1 & Hcase).
  { rewrite Hhdr. apply elem_of_app. right. apply elem_of_cons. auto. }
  { rewrite length_app. simpl. lia. }
  rewrite Hhdr, Hnew in Hh1. injection Hh1 as <-. cbn [metadata.size] in Hcase.
  rewrite Hhdr in Hcase.
  destruct Hcase as [(Hne & _)|[(_ & Hl & Hf)|(_ & l1 & pred & hp & Hl & Hhp & Hf)]].
  - exfalso. apply Hne. unfold carved. cbn [brk]. lia.
  - destruct l as [|? [|? ?]]; try discriminate. clear Hl.
    simpl in Hseg, Htail. bools.
    eexists.
    split; [apply (malloc_carve_eq a fuel st s [] Hinv Hs Hfoot Hno Hroom);
            simpl; lia|].
    split; [assumption|]. split; [exact Hf|].
    cbn [head tail brk mem heap set_brk set_tail set_head carved].
    repeat split; try congruence; try lia.
    + intros x Hx. rewrite Htail. change (NULL =? NULL) with true. cbv iota.
      now apply lookup_insert_ne.
    + apply inv_intro;
        cbn [head tail brk heap List.last lseg tiled set_brk set_tail set_head];
        try reflexivity; try lia.
  - apply app_inj_tail in Hl as (-> & _).
    rewrite last_last in Htail.
    destruct (lseg_last _ _ _ _ Hseg) as (_ & Hpn & ht & Hht & Hnext).
    pose proof (lseg_nonempty_head _ _ _ _ Hseg ltac:(destruct l1; discriminate))
      as (Hhead & _).
    pose proof (tiled_bounds _ _ _ _ Htiled) as Hb.
    assert (Hplt : pred < brk st)
      by (apply Hb, elem_of_app; right; apply elem_of_cons; auto).
    assert (Hhp' : hp = metadata.set_next (brk st) ht).
    { revert Hhp. unfold carved. cbn [heap].
      rewrite Htail, (eqb_false _ _ Hpn), Hht, lookup_insert_eq. congruence. }
    set (hs2 := <[pred := metadata.set_next NULL hp]> (heap (carved a st s))) in *.
    assert (Hsame : ∀ x, x ≠ brk st → hs2 !! x = heap st !! x).
    { intros x Hx. unfold hs2, carved. cbn [heap].
      rewrite Htail, (eqb_false _ _ Hpn), Hht, insert_insert_eq, Hhp'.
      rewrite lookup_insert. destruct (decide (pred = x)) as [<-|_].
      - rewrite Hht. f_equal. clear - Hnext. destruct ht as [sz fr nx].
        cbn [metadata.next] in Hnext. subst nx. reflexivity.
      - now apply lookup_insert_ne. }
    assert (Hhd : head (carved a st s) = head st)
      by (unfold carved; cbn [head]; rewrite (eqb_false _ _ Hhead); reflexivity).
    assert (Hbk : brk (carved a st s) - (sizeof_header a + s) = brk st)
      by (unfold carved; cbn [brk]; lia).
    assert (Hmm : mem (carved a st s) = mem st) by reflexivity.
    rewrite Hbk in Hf.
    destruct (unlinked_fields (brk st) pred hs2 (carved a st s))
      as (Fh & Ft & Fhp & Fm & Fb).
    eexists.
    split; [apply (malloc_carve_eq a fuel st s _ Hinv Hs Hfoot Hno Hroom); lia|].
    split; [assumption|]. split; [exact Hf|].
    rewrite Fh, Ft, Fm, Fb, Fhp, Hhd, Hmm.
    split; [reflexivity|]. split; [symmetry; assumption|].
    split; [reflexivity|]. split; [reflexivity|]. split; [assumption|].
    apply inv_intro; rewrite ?Fh, ?Ft, ?Fb, ?Fhp, ?Hhd.
    + rewrite <- Hseg. apply lseg_ext. intros x Hx. apply Hb in Hx.
      rewrite Hsame by lia. reflexivity.
    + rewrite last_last. reflexivity.
    + rewrite <- Htiled. apply tiled_ext. intros x Hx. apply Hb in Hx.
      rewrite Hsame by lia. reflexivity.
    + lia.
Qed.

(** What a release does to the blocks of a well-formed arena. *)
Lemma free_effects (fuel : nat) (st : state) (p : Z) (l : list Z) :
  inv a st l = true →
  p - sizeof_header a ∈ l →
  (length l < fuel)%nat →
  ∃ st' l', free a fuel st p = Ret st' ∧ inv a st' l' = true ∧
    brk st' <= brk st ∧ (length l' <= length l)%nat ∧
    (p - sizeof_header a ∈ l' →
     metadata.is_free <$> heap st' !! (p - sizeof_header a) = Some true) ∧
    (∀ y h, y ∈ l → y ≠ p - sizeof_header a → heap st !! y = Some h →
       y ∈ l' ∧
       ∃ h', heap st' !! y = Some h' ∧
             metadata.size h' = metadata.size h ∧
             metadata.is_free h' = metadata.is_free h).
Proof.
  intros Hinv Hin Hfuel.
  pose proof (sizeof_header_pos a) as Hpos.
  pose proof (inv_elim _ _ _ Hinv) as (_ & _ & Htiled & _).
  destruct (tiled_lookup _ _ _ _ _ Htiled Hin) as (h0 & Hh0 & _ & Hsz0 & _).
  destruct (free_cases a fuel st p l Hinv Hin Hfuel)
    as (h & Hh & [(Hne & Hf)|[(Hend & -> & Hf)|(Hend & l1 & pred & hp & -> & Hhp & Hf)]]);
    rewrite Hh in Hh0; injection Hh0 as <-.
  - eexists _, l. split; [exact Hf|].
    split; [exact (inv_set_is_free a st l _ h true Hinv Hh)|].
    cbn [mem brk heap set_heap]. repeat split; try lia.
    + intros _. now rewrite lookup_insert_eq.
    + assumption.
    + rewrite lookup_insert_ne by congruence. eauto.
  - eexists _, []. split; [exact Hf|].
    split; [exact (inv_emptied a st _ h Hinv Hh)|].
    cbn [mem brk heap set_brk set_tail set_head].
    repeat split; try lia; try (simpl; lia).
    + intros Hx. now apply elem_of_nil in Hx.
    + apply elem_of_cons in H as [?|H]; [contradiction|].
      now apply elem_of_nil in H.
    + apply elem_of_cons in H as [?|H]; [contradiction|].
      now apply elem_of_nil in H.
  - eexists _, (l1 ++ [pred]). split; [exact Hf|].
    split; [exact (inv_unlinked a st l1 pred _ hp h Hinv Hhp Hh)|].
    rewrite tiled_app in Htiled. cbn [hd] in Htiled.
    apply andb_true_iff in Htiled as (Ht0 & _).
    pose proof (tiled_bounds _ _ _ _ Ht0) as Hb0.
    cbn [mem brk heap set_brk set_tail set_heap].
    repeat split; try lia; try (rewrite !length_app; simpl; lia).
    + intros Hx. apply Hb0 in Hx. lia.
    + apply elem_of_app in H as [H|H]; [assumption|].
      apply elem_of_cons in H as [?|H]; [contradiction|].
      now apply elem_of_nil in H.
    + rewrite lookup_insert. destruct (decide (pred = y)) as [<-|_].
      * rewrite Hhp in H1. injection H1 as <-. eauto.
      * eauto.
Qed.


(** X7. In a well-formed arena, releasing the payload of a listed block
    always returns and leaves a well-formed arena; it writes no payload
    byte and never raises the break; the released block is afterwards
    either gone from the list or marked free; every other block stays in
    the list with its size and its flag. *)
Theorem free_keeps_other_blocks (fuel : nat) (st : state) (p : Z) (l : list Z) :
  inv a st l = true →
  p - sizeof_header a ∈ l →
  (length l < fuel)%nat →
  ∃ st' l', free a fuel st p = Ret st' ∧ inv a st' l' = true ∧
    mem st' = mem st ∧ brk st' <= brk st ∧
    (p - sizeof_header a ∈ l' →
     metadata.is_free <$> heap st' !! (p - sizeof_header a) = Some true) ∧
    (∀ y h, y ∈ l → y ≠ p - sizeof_header a → heap st !! y = Some h →
       y ∈ l' ∧
       ∃ h', heap st' !! y = Some h' ∧
             metadata.size h' = metadata.size h ∧
             metadata.is_free h' = metadata.is_free h).
Proof.
  intros Hinv Hin Hfuel.
  destruct (free_effects fuel st p l Hinv Hin Hfuel)
    as (st' & l' & Hf & Hinv' & Hbrk & _ & Hrel & Hothers).
  exists st', l'. split; [assumption|]. split; [assumption|].
  split; [exact (free_mem a _ _ _ _ Hf)|].
  split; [assumption|]. split; assumption.
Qed.

(** What a successful [malloc] does to the blocks of a well-formed arena. *)
Lemma malloc_success_effects (fuel : nat) (st st1 : state) (s q : Z)
      (l : list Z) :
  inv a st l = true →
  0 < s →
  sizeof_header a + s < 2 ^ (bits a - 1) →
  (length l < fuel)%nat →
  malloc a fuel st s = Ret (q, st1) →
  q ≠ NULL →
  ∃ l1 hq,
    inv a st1 l1 = true ∧ (length l1 <= S (length l))%nat ∧
    (∀ x, x ∈ l → x ∈ l1) ∧
    q - sizeof_header a ∈ l1 ∧
    heap st1 !! (q - sizeof_header a) = Some hq ∧
    metadata.is_free hq = false ∧ s <= metadata.size hq ∧
    (q - sizeof_header a ∈ l →
     ∃ hb, heap st !! (q - sizeof_header a) = Some hb ∧
           metadata.is_free hb = true ∧ s <= metadata.size hb) ∧
    (∀ x h, x ∈ l → x ≠ q - sizeof_header a → heap st !! x = Some h →
       ∃ h', heap st1 !! x = Some h' ∧
             metadata.size h' = metadata.size h ∧
             metadata.is_free h' = metadata.is_free h).
Proof.
  intros Hinv Hs Hfoot Hfuel Hm Hq.
  pose proof (inv_elim _ _ _ Hinv) as (_ & _ & Htiled & _).
  pose proof (tiled_bounds _ _ _ _ Htiled) as Hb.
  destruct (malloc_cases a fuel st s l Hinv Hs Hfoot Hfuel)
    as [(pre & b & post & hb & -> & Hno & Hhb & Hfree & Hcap & Hm')
       |[(Hno & Hroom & Hm')|(Hno & Hfull & Hm')]];
    rewrite Hm' in Hm; injection Hm as <- <-; [| |contradiction].
  - replace (b + sizeof_header a - sizeof_header a) with b by lia.
    exists (pre ++ b :: post), (metadata.set_is_free false hb).
    split; [now apply inv_set_is_free|]. split; [lia|].
    split; [auto|].
    split; [apply elem_of_app; right; apply elem_of_cons; auto|].
    cbn [heap set_heap]. split; [apply lookup_insert_eq|].
    split; [reflexivity|]. split; [assumption|]. split; [eauto|].
    intros x h Hx Hne Hh. rewrite lookup_insert_ne by congruence. eauto.
  - replace (brk st + sizeof_header a - sizeof_header a) with (brk st) by lia.
    exists (l ++ [brk st]), (metadata.Build s false NULL).
    split; [now apply carved_inv|].
    split; [rewrite length_app; simpl; lia|].
    split; [intros x Hx; apply elem_of_app; auto|].
    split; [apply elem_of_app; right; apply elem_of_cons; auto|].
    split; [now apply carved_lookup_new with (l := l)|].
    split; [reflexivity|]. split; [cbn; lia|]. split.
    + intros Hin. apply Hb in Hin. lia.
    + intros x h Hx Hne Hh. now apply carved_lookup_old.
Qed.

(** X1. In a well-formed arena, a non-null pointer returned by [malloc]
    answers a non-zero request and lies exactly one header size past the
    header of a listed block that is marked in use and records a capacity
    of at least the request; no payload byte has been written and the
    arena is well formed. *)
Theorem malloc_success_block (fuel : nat) (st st' : state) (s p : Z)
        (l : list Z) :
  inv a st l = true →
  size_ok a s →
  (length l < fuel)%nat →
  malloc a fuel st s = Ret (p, st') →
  p ≠ NULL →
  0 < s ∧ mem st' = mem st ∧
  ∃ l' h, inv a st' l' = true ∧
          p - sizeof_header a ∈ l' ∧
          heap st' !! (p - sizeof_header a) = Some h ∧
          metadata.is_free h = false ∧ s <= metadata.size h.
Proof.
  intros Hinv Hok Hfuel Hm Hp.
  destruct Hok as [->|[Hs Hfoot]].
  { change (malloc a fuel st 0) with (@Ret (Z * state) (NULL, st)) in Hm.
    injection Hm as <- _. contradiction. }
  split; [assumption|]. split; [exact (malloc_mem a _ _ _ _ _ Hm)|].
  destruct (malloc_success_effects fuel st st' s p l Hinv Hs Hfoot Hfuel Hm Hp)
    as (l1 & hq & Hinv1 & _ & _ & Hin & Hhq & Hlive & Hcap & _).
  exists l1, hq. repeat split; assumption.
Qed.

(** X8. In a well-formed arena, a non-null pointer returned by a [calloc]
    within the contract answers a product [num * esize] that fits a
    [size_t]; every byte of the [num * esize] bytes from the pointer on is
    zero, every other payload byte is as before, and the pointer lies one
    header size past the header of a listed block in use with capacity at
    least [num * esize]; the arena is well formed. *)
Theorem calloc_zero_fills (fuel : nat) (st st' : state) (num esize p : Z)
        (l : list Z) :
  inv a st l = true →
  valid_call a l (Calloc num esize) →
  (length l < fuel)%nat →
  calloc a fuel st num esize = Ret (p, st') →
  p ≠ NULL →
  0 < num * esize < 2 ^ bits a ∧
  (∀ q, p <= q < p + num * esize → mem st' !! q = Some x00) ∧
  (∀ q, ¬ (p <= q < p + num * esize) → mem st' !! q = mem st !! q) ∧
  ∃ l' h, inv a st' l' = true ∧
          p - sizeof_header a ∈ l' ∧
          heap st' !! (p - sizeof_header a) = Some h ∧
          metadata.is_free h = false ∧ num * esize <= metadata.size h.
Proof.
  intros Hinv (Hn & He & Hprod) Hfuel Hc Hp. unfold calloc in Hc.
  destruct (Z.eqb_spec num 0) as [|Hn0]; [injection Hc as <- _; contradiction|].
  destruct (Z.eqb_spec esize 0) as [|He0]; [injection Hc as <- _; contradiction|].
  cbn [orb] in Hc.
  destruct (esize =? wrap a (num * esize) / num) eqn:Echk; cbn [negb] in Hc;
    [|injection Hc as <- _; contradiction].
  assert (Hfit : num * esize < 2 ^ bits a).
  { destruct (Z.lt_ge_cases (num * esize) (2 ^ bits a)) as [|Hov]; [assumption|].
    apply (calloc_check_iff a num esize) in Hov; [congruence | lia | lia]. }
  assert (Hpos : 0 < num * esize) by nia.
  assert (Hfoot : sizeof_header a + num * esize < 2 ^ (bits a - 1)).
  { destruct Hprod as [Hov|[E|[_ Hf]]]; [lia | lia | exact Hf]. }
  unfold wrap in Hc. rewrite Z.mod_small in Hc by lia.
  destruct (malloc a fuel st (num * esize)) as [[q st1]| |] eqn:Hm;
    cbn [mbind outcome_bind] in Hc; [|discriminate..].
  destruct (Z.eqb_spec q NULL) as [|Hq]; [injection Hc as <- _; contradiction|].
  injection Hc as <- <-.
  pose proof (malloc_mem a _ _ _ _ _ Hm) as Hmem.
  destruct (malloc_success_effects fuel st st1 (num * esize) q l Hinv Hpos Hfoot
              Hfuel Hm Hq)
    as (l1 & hq & Hinv1 & _ & _ & Hin & Hhq & Hlive & Hcap & _).
  split; [lia|]. cbn [mem heap set_mem]. unfold memset.
  split; [|split].
  - intros x Hx. rewrite memset_loop_lookup, Z2Nat.id by lia.
    destruct (decide _); [reflexivity | lia].
  - intros x Hx. rewrite memset_loop_lookup, Z2Nat.id by lia.
    destruct (decide _); [lia | now rewrite Hmem].
  - exists l1, hq. split; [exact Hinv1|]. repeat split; assumption.
Qed.

(** X9. In a well-formed arena, when [realloc] is asked for more than the
    capacity of the block of [p] and returns a non-null pointer, that
    pointer differs from [p]; its first [size] bytes, where [size] is the
    old capacity, are the bytes of the old payload; it lies one header size
    past a listed header in use with capacity at least the request; the
    old block is released (gone from the list or marked free); the arena
    is well formed. *)
Theorem realloc_moves_content (fuel : nat) (st st' : state) (p n q : Z)
        (l : list Z) (h : metadata.t) :
  inv a st l = true →
  p - sizeof_header a ∈ l →
  heap st !! (p - sizeof_header a) = Some h →
  metadata.size h < n →
  sizeof_header a + n < 2 ^ (bits a - 1) →
  (length l + 1 < fuel)%nat →
  realloc a fuel st p n = Ret (q, st') →
  q ≠ NULL →
  q ≠ p ∧
  (∀ i, 0 <= i < metadata.size h → mem st' !! (q + i) = mem st !! (p + i)) ∧
  ∃ l' hq,
    inv a st' l' = true ∧ q - sizeof_header a ∈ l' ∧
    heap st' !! (q - sizeof_header a) = Some hq ∧
    metadata.is_free hq = false ∧ n <= metadata.size hq ∧
    (p - sizeof_header a ∈ l' →
     metadata.is_free <$> heap st' !! (p - sizeof_header a) = Some true).
Proof.
  intros Hinv Hin Hh Hcap Hfoot Hfuel Hr Hq.
  pose proof (sizeof_header_pos a) as Hpos.
  pose proof (inv_elim _ _ _ Hinv) as (_ & _ & Htiled & _).
  destruct (tiled_lookup _ _ _ _ _ Htiled Hin) as (h0 & Hh0 & Hx & Hsz & _).
  rewrite Hh in Hh0. injection Hh0 as <-.
  unfold realloc in Hr.
  rewrite (eqb_false p NULL), (eqb_false n 0) in Hr by (unfold NULL; lia).
  cbn [orb] in Hr. rewrite (load_Some _ _ _ Hh) in Hr.
  cbn [mbind outcome_bind] in Hr.
  destruct (Z.leb_spec n (metadata.size h)) as [|_]; [lia|].
  destruct (malloc a fuel st n) as [[q1 st1]| |] eqn:Hm;
    cbn [mbind outcome_bind] in Hr; [|discriminate..].
  destruct (Z.eqb_spec q1 NULL) as [->|Hq1]; cbn [negb] in Hr;
    [injection Hr as <- _; contradiction|].
  destruct (malloc_success_effects fuel st st1 n q1 l Hinv ltac:(lia) Hfoot
              ltac:(lia) Hm Hq1)
    as (l1 & hq & Hinv1 & Hlen1 & Hsub & Hq1in & Hhq & Hqlive & Hqcap & Hwas & Hold).
  assert (Hne : p - sizeof_header a ≠ q1 - sizeof_header a).
  { intros E. rewrite <- E in Hwas.
    destruct (Hwas Hin) as (hb & Hhb & _ & Hfit).
    rewrite Hh in Hhb. injection Hhb as <-. lia. }
  destruct (Hold _ _ Hin Hne Hh) as (h1 & Hh1 & Hs1 & _).
  rewrite (load_Some _ _ _ Hh1) in Hr. cbn [mbind outcome_bind] in Hr.
  set (st2 := set_mem _ st1) in Hr.
  destruct (free_effects fuel st2 p l1 Hinv1 (Hsub _ Hin) ltac:(lia))
    as (st3 & l3 & Hf & Hinv3 & _ & _ & Hrel & Hothers).
  rewrite Hf in Hr. cbn [mbind outcome_bind] in Hr. injection Hr as <- <-.
  split; [lia|]. split.
  - intros i Hi. rewrite (free_mem a _ _ _ _ Hf).
    unfold st2. cbn [mem set_mem]. rewrite (malloc_mem a _ _ _ _ _ Hm).
    unfold memcpy. rewrite Hs1.
    pose proof (inv_elim _ _ _ Hinv1) as (_ & _ & Htiled1 & _).
    assert (Hsep : q1 + metadata.size h <= p ∨ p + metadata.size h <= q1).
    { destruct (Z.lt_total (q1 - sizeof_header a) (p - sizeof_header a))
        as [Hlt|[E|Hlt]]; [|congruence|].
      - left.
        pose proof (tiled_separated a _ _ _ Htiled1 _ _ hq Hq1in (Hsub _ Hin) Hlt Hhq).
        lia.
      - right.
        pose proof (tiled_separated a _ _ _ Htiled1 _ _ h1 (Hsub _ Hin) Hq1in Hlt Hh1).
        lia. }
    rewrite memcpy_loop_lookup by (rewrite Z2Nat.id by lia; assumption).
    rewrite Z2Nat.id by lia.
    destruct (decide _); [f_equal; lia | lia].
  - destruct (Hothers _ _ Hq1in ltac:(congruence) Hhq) as (Hq3 & hq3 & Hhq3 & Hs3 & Hf3).
    exists l3, hq3. repeat split; try assumption; congruence.
Qed.

(** Every call within the contract returns in a well-formed arena. *)
Lemma run_inv (fuel : nat) (st : state) (l : list Z) (c : call) :
  inv a st l = true →
  valid_call a l c →
  (length l + 1 < fuel)%nat →
  ∃ st' l', run a fuel st c = Ret st' ∧ inv a st' l' = true.
Proof.
  intros Hinv Hvalid Hfuel. destruct c as [s|p|n e|p s]; cbn [run].
  - destruct (malloc_preserves a fuel st s l Hinv Hvalid ltac:(lia))
      as (q & st' & l' & -> & Hinv' & _).
    exists st', l'. auto.
  - destruct (free_preserves a fuel st p l Hinv Hvalid ltac:(lia))
      as (st' & l' & -> & Hinv' & _).
    exists st', l'. auto.
  - destruct (calloc_preserves a fuel st n e l Hinv Hvalid ltac:(lia))
      as (q & st' & l' & -> & Hinv').
    exists st', l'. auto.
  - destruct (realloc_preserves a fuel st p s l Hinv Hvalid Hfuel)
      as (q & st' & l' & -> & Hinv').
    exists st', l'. auto.
Qed.

(** Every block of a tiling ends at or below [top]. *)
Lemma tiled_end (hs : gmap Z metadata.t) (top : Z) (l : list Z) :
  tiled a hs l top = true →
  ∀ x hx, x ∈ l → hs !! x = Some hx →
          x + sizeof_header a + metadata.size hx <= top.
Proof.
  induction l as [|z l IH]; intros Ht x hx Hx Hhx.
  - now apply elem_of_nil in Hx.
  - pose proof (tiled_cons _ _ _ _ _ Ht) as (hz & Hhz & _ & _ & _ & Hend & Ht').
    apply elem_of_cons in Hx as [->|Hx]; [|exact (IH Ht' x hx Hx Hhx)].
    rewrite Hhz in Hhx. injection Hhx as <-.
    destruct l as [|y l]; cbn [hd] in Hend; [lia|].
    pose proof (tiled_bounds _ _ _ _ Ht' y ltac:(apply elem_of_cons; auto)). lia.
Qed.

(** X10. After every call within the contract on a well-formed arena the
    blocks that the links from [head] visit, up to [tail], do not overlap:
    each block, header and payload, ends at or before the header of every
    block at a higher address; every block has a positive capacity and
    lies below the break; the payload of [tail] ends exactly at the
    break. *)
Theorem blocks_never_overlap (fuel : nat) (st : state) (l : list Z) (c : call) :
  inv a st l = true →
  valid_call a l c →
  (length l + 1 < fuel)%nat →
  ∃ st' l', run a fuel st c = Ret st' ∧
    lseg (heap st') (head st') l' NULL = true ∧
    tail st' = List.last l' NULL ∧
    (∀ x y hx, x ∈ l' → y ∈ l' → x < y → heap st' !! x = Some hx →
       x + sizeof_header a + metadata.size hx <= y) ∧
    (∀ x, x ∈ l' →
       ∃ hx, heap st' !! x = Some hx ∧ 0 < metadata.size hx ∧
             x + sizeof_header a + metadata.size hx <= brk st') ∧
    (l' ≠ [] →
       ∃ ht, heap st' !! tail st' = Some ht ∧
             tail st' + sizeof_header a + metadata.size ht = brk st').
Proof.
  intros Hinv Hvalid Hfuel.
  destruct (run_inv fuel st l c Hinv Hvalid Hfuel) as (st' & l' & Hrun & Hinv').
  pose proof (inv_elim _ _ _ Hinv') as (Hseg & Htail & Htiled & _).
  exists st', l'. split; [assumption|].
  split; [assumption|]. split; [assumption|]. split; [|split].
  - exact (tiled_separated a _ _ _ Htiled).
  - intros x Hx.
    destruct (tiled_lookup _ _ _ _ _ Htiled Hx) as (hx & Hhx & _ & Hsz & _).
    exists hx. repeat split; [assumption..|].
    exact (tiled_end _ _ _ Htiled x hx Hx Hhx).
  - intros Hne. destruct l' as [|t l0 _] using rev_ind; [contradiction|].
    rewrite last_last in Htail. rewrite tiled_app in Htiled.
    apply andb_true_iff in Htiled as (_ & Ht).
    apply tiled_cons in Ht as (ht & Hht & _ & _ & _ & Hend & _).
    cbn [hd] in Hend. exists ht. rewrite Htail. split; assumption.
Qed.

End Properties.

(** ** The dump and the search on arbitrary lists *)

Lemma print_memory_loop_lines (hs : gmap Z metadata.t) (l : list Z) :
  ∀ (p : Z) (out : list line) (fuel : nat),
    lseg hs p l NULL = true →
    (length l < fuel)%nat →
    ∃ lines, print_memory_loop fuel hs p out = (out ++ lines, Ret tt) ∧
             Forall2 (fun x ln => block_line hs x = Some ln) l lines.
Proof.
  induction l as [|x l IH]; intros p out fuel Hseg Hfuel.
  - simpl in Hseg. bools. subst p. destruct fuel as [|fuel]; [simpl in Hfuel; lia|].
    exists []. split; [now rewrite app_nil_r | constructor].
  - apply lseg_cons in Hseg as (-> & Hx & h & Hh & Hseg).
    destruct fuel as [|fuel]; [simpl in Hfuel; lia|].
    cbn [print_memory_loop]. rewrite (eqb_false _ _ Hx), Hh.
    destruct (IH (metadata.next h)
                 (out ++ [Block x (metadata.size h) (metadata.is_free h)
                                (metadata.next h)])
                 fuel Hseg ltac:(simpl in Hfuel; lia))
      as (lines & -> & Hall).
    eexists (_ :: lines). split; [now rewrite <- app_assoc|].
    constructor; [|assumption]. unfold block_line. now rewrite Hh.
Qed.

(** X11. When the links from [head] visit the blocks [l] and end in
    [NULL], [print_memory] returns after printing the line of [head] and
    [tail] followed by exactly one line per block of [l], in list order,
    each with the address, size, flag and link of its block. *)
Theorem print_memory_lists_blocks (fuel : nat) (st : state) (l : list Z) :
  lseg (heap st) (head st) l NULL = true →
  (length l < fuel)%nat →
  ∃ lines,
    print_memory fuel st = (HeadTail (head st) (tail st) :: lines, Ret tt) ∧
    Forall2 (fun x ln => block_line (heap st) x = Some ln) l lines.
Proof.
  intros Hseg Hfuel. unfold print_memory.
  destruct (print_memory_loop_lines (heap st) l (head st)
              [HeadTail (head st) (tail st)] fuel Hseg Hfuel)
    as (lines & -> & Hall).
  now exists lines.
Qed.

(** The search runs out of any bound before the end of a stretch of blocks
    that do not fit. *)
Lemma check_for_block_loop_short (hs : gmap Z metadata.t) (s : Z) (l : list Z) :
  ∀ (p q : Z) (fuel : nat),
    lseg hs p l q = true →
    no_fit hs s l = true →
    (fuel <= length l)%nat →
    check_for_block_loop fuel hs s p = Diverge.
Proof.
  induction l as [|x l IH]; intros p q fuel Hseg Hno Hfuel.
  - destruct fuel; [reflexivity | simpl in Hfuel; lia].
  - destruct fuel as [|fuel]; [reflexivity|].
    apply lseg_cons in Hseg as (-> & Hx & h & Hh & Hseg).
    unfold no_fit in Hno. cbn [forallb] in Hno. bools.
    unfold fits_at in H. rewrite Hh in H.
    cbn [check_for_block_loop].
    rewrite (eqb_false _ _ Hx), (load_Some _ _ _ Hh). cbn [mbind outcome_bind].
    rewrite H. apply (IH _ q); [assumption..|]. simpl in Hfuel. lia.
Qed.

(** The search never returns from a cycle of blocks that do not fit. *)
Lemma check_for_block_loop_cycle (hs : gmap Z metadata.t) (s c : Z)
      (cyc : list Z) :
  lseg hs c cyc c = true →
  cyc ≠ [] →
  no_fit hs s cyc = true →
  ∀ fuel, check_for_block_loop fuel hs s c = Diverge.
Proof.
  intros Hcyc Hne Hno fuel.
  induction fuel as [fuel IH] using lt_wf_ind.
  destruct (Nat.le_gt_cases fuel (length cyc)) as [Hle|Hgt].
  - exact (check_for_block_loop_short hs s cyc c c fuel Hcyc Hno Hle).
  - replace fuel with (length cyc + (fuel - length cyc))%nat by lia.
    rewrite (check_for_block_loop_skip _ _ _ _ _ _ Hcyc Hno).
    apply IH. destruct cyc; [contradiction | simpl in *; lia].
Qed.

(** X12. When the links from [head] lead, through blocks that do not fit
    the request, into a cycle of blocks that do not fit it either, a
    [malloc] of [s > 0] bytes never returns, whatever the bound on the
    number of iterations of its search. *)
Theorem malloc_never_returns_on_cycle (a : abi) (st : state) (s c : Z)
        (pre cyc : list Z) :
  0 < s →
  lseg (heap st) (head st) pre c = true →
  lseg (heap st) c cyc c = true →
  cyc ≠ [] →
  no_fit (heap st) s pre = true →
  no_fit (heap st) s cyc = true →
  ∀ fuel, malloc a fuel st s = Diverge.
Proof.
  intros Hs Hpre Hcyc Hne Hnopre Hnocyc fuel.
  assert (Hsearch : check_for_block fuel st s = Diverge).
  { unfold check_for_block.
    destruct (Nat.le_gt_cases fuel (length pre)) as [Hle|Hgt].
    - exact (check_for_block_loop_short _ s pre _ c fuel Hpre Hnopre Hle).
    - replace fuel with (length pre + (fuel - length pre))%nat by lia.
      rewrite (check_for_block_loop_skip _ _ _ _ _ _ Hpre Hnopre).
      now apply check_for_block_loop_cycle with (cyc := cyc). }
  unfold malloc. rewrite eqb_false by lia. now rewrite Hsearch.
Qed.

Lemma block_list_lseg (hs : gmap Z metadata.t) (l : list Z) :
  ∀ (p : Z) (fuel : nat),
    lseg hs p l NULL = true → (length l < fuel)%nat →
    block_list fuel hs p = Some l.
Proof.
  induction l as [|x l IH]; intros p fuel Hseg Hfuel;
    (destruct fuel as [|fuel]; [simpl in Hfuel; lia|]).
  - simpl in Hseg. bools. subst p. reflexivity.
  - apply lseg_cons in Hseg as (-> & Hx & h & Hh & Hseg).
    cbn [block_list]. rewrite (eqb_false _ _ Hx), Hh.
    rewrite (IH _ fuel Hseg) by (simpl in Hfuel; lia). reflexivity.
Qed.

(** X14. From a well-formed arena, every sequence of calls that are each
    within the contract when they are made returns, and the state it
    leaves is well formed: [head] is empty iff [tail] is empty iff there
    is no block, the links visit the blocks in strictly increasing address
    order, and [tail] is the last block, with an empty link. *)
Theorem run_all_keeps_list_shape (a : abi) (fuel : nat) (cs : list call) :
  ∀ (st : state) (l : list Z),
    inv a st l = true →
    calls_ok a fuel st cs →
    ∃ st' l', run_all a fuel st cs = Ret st' ∧ inv a st' l' = true ∧
              list_shape st' l'.
Proof.
  induction cs as [|c cs IH]; intros st l Hinv Hok.
  - exists st, l. split; [reflexivity|]. split; [assumption|].
    now apply inv_list_shape with (a := a).
  - destruct Hok as ((l0 & Hl0 & Hvalid & Hfuel) & Hrest).
    pose proof (inv_elim _ _ _ Hinv) as (Hseg & _).
    destruct (Nat.lt_ge_cases (length l) fuel) as [Hlt|Hge].
    + rewrite (block_list_lseg _ _ _ _ Hseg Hlt) in Hl0. injection Hl0 as <-.
      destruct (run_inv a fuel st l c Hinv Hvalid Hfuel) as (st1 & l1 & Hrun & Hinv1).
      cbn [run_all]. rewrite Hrun. cbn [mbind outcome_bind].
      exact (IH st1 l1 Hinv1 (Hrest st1 Hrun)).
    + exfalso. clear - Hseg Hge Hl0 Hfuel.
      assert (Hnone : ∀ (l : list Z) (p : Z) (fuel : nat) hs,
                 lseg hs p l NULL = true → (fuel <= length l)%nat →
                 block_list fuel hs p = None).
      { clear. induction l as [|x l IH]; intros p fuel hs Hseg Hle.
        - destruct fuel; [reflexivity | simpl in Hle; lia].
        - destruct fuel as [|fuel]; [reflexivity|].
          apply lseg_cons in Hseg as (-> & Hx & h & Hh & Hseg).
          cbn [block_list]. rewrite (eqb_false _ _ Hx), Hh.
          rewrite (IH _ fuel _ Hseg) by (simpl in Hle; lia). reflexivity. }
      rewrite (Hnone _ _ _ _ Hseg Hge) in Hl0. discriminate.
Qed.

(** ** The further properties at concrete inputs *)

Lemma inv_full : inv LP64 st_full [4096; 4130; 4174; 4228] = true.
Proof. reflexivity. Qed.

Lemma inv_bytes : inv LP64 st_bytes [4096; 4130; 4174; 4228] = true.
Proof. reflexivity. Qed.

Lemma malloc_success_block_witness :
  0 < 15 ∧
  mem (set_heap (<[4130 := metadata.Build 20 false 4174]> blocks4) st_blocks)
  = mem st_blocks ∧
  ∃ l' h,
    inv LP64 (set_heap (<[4130 := metadata.Build 20 false 4174]> blocks4) st_blocks)
        l' = true ∧
    4154 - sizeof_header LP64 ∈ l' ∧
    heap (set_heap (<[4130 := metadata.Build 20 false 4174]> blocks4) st_blocks)
      !! (4154 - sizeof_header LP64) = Some h ∧
    metadata.is_free h = false ∧ 15 <= metadata.size h.
Proof.
  apply (malloc_success_block LP64 5 st_blocks
           (set_heap (<[4130 := metadata.Build 20 false 4174]> blocks4) st_blocks)
           15 4154 [4096; 4130; 4174; 4228] inv_blocks);
    [right; split; [lia | vm_compute; reflexivity] | simpl; lia
    | vm_compute; reflexivity | discriminate].
Defined.

Lemma malloc_fails_iff_witness :
  ∃ p st', malloc LP64 5 st_full 100 = Ret (p, st') ∧
    (p = NULL ↔
       no_fit (heap st_full) 100 [4096; 4130; 4174; 4228] = true ∧
       brk_max st_full < brk st_full + (sizeof_header LP64 + 100)) ∧
    (p = NULL → st' = st_full).
Proof.
  apply (malloc_fails_iff LP64 5 st_full 100 [4096; 4130; 4174; 4228] inv_full);
    [lia | vm_compute; reflexivity | simpl; lia].
Defined.

Lemma malloc_grows_by_one_block_witness :
  ∃ st', malloc LP64 5 st_blocks 100 = Ret (brk st_blocks + sizeof_header LP64, st') ∧
    inv LP64 st' ([4096; 4130; 4174; 4228] ++ [brk st_blocks]) = true ∧
    heap st' !! brk st_blocks = Some (metadata.Build 100 false NULL) ∧
    tail st' = brk st_blocks ∧
    brk st' = brk st_blocks + (sizeof_header LP64 + 100) ∧
    ([4096; 4130; 4174; 4228] = [] → head st' = brk st_blocks) ∧
    ([4096; 4130; 4174; 4228] ≠ [] → head st' = head st_blocks) ∧
    (∀ x h, x ∈ [4096; 4130; 4174; 4228] → heap st_blocks !! x = Some h →
       ∃ h', heap st' !! x = Some h' ∧
             metadata.size h' = metadata.size h ∧
             metadata.is_free h' = metadata.is_free h).
Proof.
  apply (malloc_grows_by_one_block LP64 5 st_blocks 100 [4096; 4130; 4174; 4228]
           inv_blocks);
    [lia | vm_compute; reflexivity | reflexivity | vm_compute; discriminate
    | simpl; lia].
Defined.

Lemma malloc_keeps_live_blocks_witness :
  4154 ≠ 4096 + sizeof_header LP64 ∧
  ∃ h', heap (set_heap (<[4130 := metadata.Build 20 false 4174]> blocks4) st_blocks)
          !! 4096 = Some h' ∧
        metadata.size h' = metadata.size (metadata.Build 10 false 4130) ∧
        metadata.is_free h' = false.
Proof.
  apply (malloc_keeps_live_blocks LP64 5 st_blocks
           (set_heap (<[4130 := metadata.Build 20 false 4174]> blocks4) st_blocks)
           15 4154 [4096; 4130; 4174; 4228] inv_blocks
           ltac:(right; split; [lia | vm_compute; reflexivity])
           ltac:(simpl; lia) ltac:(vm_compute; reflexivity)
           4096 (metadata.Build 10 false 4130));
    [repeat constructor | reflexivity | reflexivity].
Defined.

Lemma free_then_malloc_reuses_witness :
  ∃ st1, free LP64 5 st_blocks 4120 = Ret st1 ∧
         metadata.is_free <$> heap st1 !! (4120 - sizeof_header LP64) = Some true ∧
         malloc LP64 5 st1 5 = Ret (4120, st_blocks).
Proof.
  apply (free_then_malloc_reuses LP64 5 st_blocks 4120 5 [] [4130; 4174; 4228]
           (metadata.Build 10 false 4130));
    [reflexivity | discriminate | reflexivity | reflexivity | reflexivity
    | simpl; lia | simpl; lia].
Defined.

Lemma malloc_then_free_restores_witness :
  ∃ p st1 st2,
    malloc LP64 6 st_blocks 100 = Ret (p, st1) ∧ p ≠ NULL ∧
    free LP64 6 st1 p = Ret st2 ∧
    head st2 = head st_blocks ∧ tail st2 = tail st_blocks ∧
    brk st2 = brk st_blocks ∧ mem st2 = mem st_blocks ∧
    (∀ x, x ≠ brk st_blocks → heap st2 !! x = heap st_blocks !! x) ∧
    inv LP64 st2 [4096; 4130; 4174; 4228] = true.
Proof.
  apply (malloc_then_free_restores LP64 6 st_blocks 100 [4096; 4130; 4174; 4228]
           inv_blocks);
    [lia | vm_compute; reflexivity | reflexivity | vm_compute; discriminate
    | simpl; lia].
Defined.

Lemma free_keeps_other_blocks_witness :
  ∃ st' l', free LP64 5 st_blocks 4252 = Ret st' ∧ inv LP64 st' l' = true ∧
    mem st' = mem st_blocks ∧ brk st' <= brk st_blocks ∧
    (4252 - sizeof_header LP64 ∈ l' →
     metadata.is_free <$> heap st' !! (4252 - sizeof_header LP64) = Some true) ∧
    (∀ y h, y ∈ [4096; 4130; 4174; 4228] → y ≠ 4252 - sizeof_header LP64 →
       heap st_blocks !! y = Some h →
       y ∈ l' ∧
       ∃ h', heap st' !! y = Some h' ∧
             metadata.size h' = metadata.size h ∧
             metadata.is_free h' = metadata.is_free h).
Proof.
  apply (free_keeps_other_blocks LP64 5 st_blocks 4252 [4096; 4130; 4174; 4228]
           inv_blocks);
    [vm_compute; repeat constructor | simpl; lia].
Defined.

Lemma calloc_zero_fills_witness :
  ∃ st', calloc LP64 5 st_blocks 2 5 = Ret (4154, st') ∧
    0 < 2 * 5 < 2 ^ bits LP64 ∧
    (∀ q, 4154 <= q < 4154 + 2 * 5 → mem st' !! q = Some x00) ∧
    (∀ q, ¬ (4154 <= q < 4154 + 2 * 5) → mem st' !! q = mem st_blocks !! q) ∧
    ∃ l' h, inv LP64 st' l' = true ∧
            4154 - sizeof_header LP64 ∈ l' ∧
            heap st' !! (4154 - sizeof_header LP64) = Some h ∧
            metadata.is_free h = false ∧ 2 * 5 <= metadata.size h.
Proof.
  eexists. split; [vm_compute; reflexivity|].
  apply (calloc_zero_fills LP64 5 st_blocks _ 2 5 4154 [4096; 4130; 4174; 4228]
           inv_blocks);
    [split; [vm_compute; split; [discriminate | reflexivity]|];
     split; [vm_compute; split; [discriminate | reflexivity]|];
     right; right; split; vm_compute; reflexivity
    | simpl; lia | vm_compute; reflexivity | discriminate].
Defined.

Lemma realloc_moves_content_witness :
  ∃ st', realloc LP64 6 st_bytes 4120 25 = Ret (4198, st') ∧
    4198 ≠ 4120 ∧
    (∀ i, 0 <= i < 10 → mem st' !! (4198 + i) = mem st_bytes !! (4120 + i)) ∧
    ∃ l' hq,
      inv LP64 st' l' = true ∧ 4198 - sizeof_header LP64 ∈ l' ∧
      heap st' !! (4198 - sizeof_header LP64) = Some hq ∧
      metadata.is_free hq = false ∧ 25 <= metadata.size hq ∧
      (4120 - sizeof_header LP64 ∈ l' →
       metadata.is_free <$> heap st' !! (4120 - sizeof_header LP64) = Some true).
Proof.
  eexists. split; [vm_compute; reflexivity|].
  apply (realloc_moves_content LP64 6 st_bytes _ 4120 25 4198
           [4096; 4130; 4174; 4228] (metadata.Build 10 false 4130) inv_bytes);
    [vm_compute; repeat constructor | reflexivity | simpl; lia
    | vm_compute; reflexivity | simpl; lia | vm_compute; reflexivity
    | discriminate].
Defined.

Lemma blocks_never_overlap_witness :
  ∃ st' l', run LP64 6 st_blocks (Free 4252) = Ret st' ∧
    lseg (heap st') (head st') l' NULL = true ∧
    tail st' = List.last l' NULL ∧
    (∀ x y hx, x ∈ l' → y ∈ l' → x < y → heap st' !! x = Some hx →
       x + sizeof_header LP64 + metadata.size hx <= y) ∧
    (∀ x, x ∈ l' →
       ∃ hx, heap st' !! x = Some hx ∧ 0 < metadata.size hx ∧
             x + sizeof_header LP64 + metadata.size hx <= brk st') ∧
    (l' ≠ [] →
       ∃ ht, heap st' !! tail st' = Some ht ∧
             tail st' + sizeof_header LP64 + metadata.size ht = brk st').
Proof.
  apply (blocks_never_overlap LP64 6 st_blocks [4096; 4130; 4174; 4228]
           (Free 4252) inv_blocks);
    [right; vm_compute; repeat constructor | simpl; lia].
Defined.

Lemma print_memory_lists_blocks_witness :
  ∃ lines,
    print_memory 5 st_blocks
    = (HeadTail (head st_blocks) (tail st_blocks) :: lines, Ret tt) ∧
    Forall2 (fun x ln => block_line (heap st_blocks) x = Some ln)
            [4096; 4130; 4174; 4228] lines.
Proof.
  apply (print_memory_lists_blocks 5 st_blocks [4096; 4130; 4174; 4228]);
    [reflexivity | simpl; lia].
Defined.

Lemma malloc_never_returns_on_cycle_witness :
  malloc LP64 1000 st_cyclic 1 = Diverge.
Proof.
  apply (malloc_never_returns_on_cycle LP64 st_cyclic 1 4121 [4096] [4121]
           ltac:(lia) ltac:(reflexivity) ltac:(reflexivity) ltac:(discriminate)
           ltac:(reflexivity) ltac:(reflexivity) 1000%nat).
Defined.

Lemma run_all_keeps_list_shape_witness :
  ∃ st' l',
    run_all LP64 8 st_fresh [Malloc 10; Malloc 20; Free 4120; Malloc 5]
    = Ret st' ∧
    inv LP64 st' l' = true ∧ list_shape st' l'.
Proof.
  apply (run_all_keeps_list_shape LP64 8 [Malloc 10; Malloc 20; Free 4120; Malloc 5]
           st_fresh [] (inv_fresh LP64)).
  cbn [calls_ok]. split.
  { exists []. split; [reflexivity|].
    split; [right; split; [lia | vm_compute; reflexivity] | simpl; lia]. }
  intros st1 H1. vm_compute in H1. injection H1 as <-. split.
  { exists [4096]. split; [vm_compute; reflexivity|].
    split; [right; split; [lia | vm_compute; reflexivity] | simpl; lia]. }
  intros st2 H2. vm_compute in H2. injection H2 as <-. split.
  { exists [4096; 4130]. split; [vm_compute; reflexivity|].
    split; [right; vm_compute; repeat constructor | simpl; lia]. }
  intros st3 H3. vm_compute in H3. injection H3 as <-. split.
  { exists [4096; 4130]. split; [vm_compute; reflexivity|].
    split; [right; split; [lia | vm_compute; reflexivity] | simpl; lia]. }
  intros st4 _. exact I.
Defined.
